(** * WaveGrad diffusion process: a shallow embedding of
      [model/diffusion_process.py] and the properties of its schedule,
      forward diffusion, reverse step and samplers.

    Conventions of the embedding.
    - A float tensor entry is a real number ([R]): rounding, overflow, NaN and
      infinities are not part of the model.
    - A one-dimensional tensor is a [list R]; a waveform batch of shape
      [B, L] is a list of [B] rows; a mel batch of shape [B, n_mels, T]
      carries its last dimension explicitly.
    - Python exceptions are values of [PyError]; fallible code returns a
      [result].
    - The two pseudo-random generators (numpy's and torch's global ones) are
      one explicit state [Gen]; a function that draws takes the state and
      returns the next one.
    - Python integers are [Z]; what numpy computes on 64-bit integers wraps. *)

From Stdlib Require Import Reals Lra Lia ZArith List Bool Sorted.
From Equations Require Import Equations.
Import ListNotations.

Open Scope R_scope.

(** ** Exceptions and the error monad *)

Inductive PyError : Set :=
| ZeroDivisionError
| RuntimeError
| AssertionError
| TypeError
| ValueError
| IndexError.

Inductive result (A : Type) : Type :=
| Ok (a : A)
| Raise (e : PyError).

Arguments Ok {A} a.
Arguments Raise {A} e.

Definition bind {A B : Type} (c : result A) (k : A -> result B) : result B :=
  match c with
  | Ok a => k a
  | Raise e => Raise e
  end.

Declare Scope py_scope.
Delimit Scope py_scope with py.
Notation "x <- c ;; k" := (bind c (fun x => k))
  (at level 61, c at next level, right associativity) : py_scope.
Notation "' p <- c ;; k" := (bind c (fun x => let 'p := x in k))
  (at level 61, p pattern, c at next level, right associativity) : py_scope.
Open Scope py_scope.

Definition is_ok {A : Type} (c : result A) : Prop :=
  exists a, c = Ok a.

(** ** Tensors as lists *)

Definition Vec := list R.
Definition Wave := list (list R).

(** A mel-spectrogram batch of shape [B, n_mels, T]: [mel_T] is
    [mels.shape[-1]], [mel_data] the entries, batch first. *)
Record Mels : Type := mkMels {
  mel_T : nat;
  mel_data : list (list (list R))
}.

(** Every innermost row has [mel_T] entries. *)
Definition mels_wf (mels : Mels) : Prop :=
  Forall (Forall (fun row => length row = mel_T mels)) (mel_data mels).

Definition wave_shape (b l : nat) (w : Wave) : Prop :=
  length w = b /\ Forall (fun row => length row = l) w.

(** Elementwise binary operation of two tensors of one shape.  The module's
    own calls combine tensors of equal shapes; what torch does with other
    shapes (broadcasting, or an error) is not modelled: the shorter operand
    decides the length. *)
Fixpoint map2 {A B C : Type} (f : A -> B -> C) (xs : list A) (ys : list B) : list C :=
  match xs, ys with
  | x :: xs', y :: ys' => f x y :: map2 f xs' ys'
  | _, _ => []
  end.

Definition vmul (x y : Vec) : Vec := map2 Rmult x y.
Definition vdiv (x y : Vec) : Vec := map2 Rdiv x y.

(** [c * w] for a scalar [c]. *)
Definition wscale (c : R) (w : Wave) : Wave := map (map (Rmult c)) w.
Definition wadd (x y : Wave) : Wave := map2 (map2 Rplus) x y.
Definition wsub (x y : Wave) : Wave := map2 (map2 Rminus) x y.

(** [level * w] where [level] has shape [B, 1] and [w] shape [B, L]: row [b]
    of [w] is scaled by [level[b]]. *)
Definition wscale_rows (level : Vec) (w : Wave) : Wave :=
  map2 (fun c row => map (Rmult c) row) level w.

Definition zeros_like (w : Wave) : Wave := map (map (fun _ => 0)) w.

(** [x.clamp_(lo, hi)] *)
Definition clamp (lo hi x : R) : R := Rmin (Rmax x lo) hi.

(** [x[t]] on a one-dimensional tensor or array with a Python integer: a
    negative index counts from the end, an index out of range raises. *)
Definition py_index (x : Vec) (t : Z) : result R :=
  let n := Z.of_nat (length x) in
  if (0 <=? t)%Z && (t <? n)%Z then Ok (nth (Z.to_nat t) x 0)
  else if (- n <=? t)%Z && (t <? 0)%Z then Ok (nth (Z.to_nat (t + n)) x 0)
  else Raise IndexError.

(** [x[s]] with an integer array [s]. *)
Fixpoint py_index_many (x : Vec) (s : list Z) : result Vec :=
  match s with
  | [] => Ok []
  | t :: s' =>
      v <- py_index x t ;;
      vs <- py_index_many x s' ;;
      Ok (v :: vs)
  end.

(** ** Schedule builder: [WaveGrad.__init__] *)

(** [torch.linspace(a, b, steps)] *)
Definition linspace (a b : R) (steps : Z) : result Vec :=
  if (steps <? 0)%Z then Raise RuntimeError
  else Ok (map (fun i => a + INR i * ((b - a) / (IZR steps - 1)))
               (seq 0 (Z.to_nat steps))).

Fixpoint cumprod_from (acc : R) (x : Vec) : Vec :=
  match x with
  | [] => []
  | a :: x' => acc * a :: cumprod_from (acc * a) x'
  end.

(** [x.cumprod(dim=0)] *)
Definition cumprod (x : Vec) : Vec := cumprod_from 1 x.

(** The floor of the posterior variance, [1e-20]. *)
Definition variance_floor : R := / 10 ^ 20.

(** A numpy scalar: [np.product] of a list of Python integers is a 64-bit
    integer, and the float [1.0] for the empty list. *)
Inductive np_scalar : Type :=
| np_int64 (k : Z)
| np_float64 (r : R).

Definition wrap64 (z : Z) : Z := ((z + 2 ^ 63) mod 2 ^ 64 - 2 ^ 63)%Z.

(** [np.product(factors)] for a list of integers that fit in 64 bits. *)
Definition np_product (factors : list Z) : np_scalar :=
  match factors with
  | [] => np_float64 1
  | _ => np_int64 (fold_left (fun acc f => wrap64 (acc * f)) factors 1%Z)
  end.

(** [total == hop_length] *)
Definition np_eqb (total : np_scalar) (hop_length : Z) : bool :=
  match total with
  | np_int64 k => (k =? hop_length)%Z
  | np_float64 r => if Req_dec_T r (IZR hop_length) then true else false
  end.

(** [a // b] on Python integers. *)
Definition py_floordiv (a b : Z) : result Z :=
  if (b =? 0)%Z then Raise ZeroDivisionError else Ok (a / b)%Z.

Definition py_assert (b : bool) : result unit :=
  if b then Ok tt else Raise AssertionError.

(** The fields of [config] that the constructor reads. *)
Record Config : Type := mkConfig {
  cfg_n_iter : Z;               (* model_config.noise_schedule.n_iter *)
  cfg_betas_range : R * R;      (* model_config.noise_schedule.betas_range *)
  cfg_segment_length : Z;       (* training_config.segment_length *)
  cfg_hop_length : Z;           (* data_config.hop_length *)
  cfg_factors : list Z          (* model_config.factors *)
}.

(** The noise predictor: [nn(mels, y, noise_level)] with [noise_level] of
    shape [B, 1]. *)
Definition Predictor : Type := Mels -> Wave -> Vec -> Wave.

Record WaveGrad : Type := mkWaveGrad {
  n_iter : Z;
  betas_range : R * R;
  mel_segment_length : Z;
  betas : Vec;
  alphas : Vec;
  alphas_cumprod : Vec;
  alphas_cumprod_prev : Vec;
  sqrt_alphas_cumprod : Vec;
  sqrt_alphas_cumprod_prev : Vec;
  sqrt_recip_alphas_cumprod : Vec;
  sqrt_recipm1_alphas_cumprod : Vec;
  posterior_log_variance_clipped : Vec;
  posterior_mean_coef1 : Vec;
  posterior_mean_coef2 : Vec;
  total_factor : np_scalar;
  nn : Predictor
}.

Section Construction.

(** [WaveGradNN(config)], the backbone network, is outside this module. *)
Variable WaveGradNN : Config -> Predictor.

(** [__init__]: the statements that can raise, in the order of the source
    (the floor division of line 25, [torch.linspace], the assertion), and the
    buffers. *)
Definition init (config : Config) : result WaveGrad :=
  let n := cfg_n_iter config in
  let range := cfg_betas_range config in
  seg <- py_floordiv (cfg_segment_length config) (cfg_hop_length config) ;;
  bs <- linspace (fst range) (snd range) n ;;
  let als := map (fun b => 1 - b) bs in
  let acp := cumprod als in
  let acp_prev := 1 :: removelast acp in
  let acp_prev_with_last := 1 :: acp in
  let pv := vdiv (vmul bs (map (fun a => 1 - a) acp_prev))
                 (map (fun a => 1 - a) acp) in
  let total := np_product (cfg_factors config) in
  _ <- py_assert (np_eqb total (cfg_hop_length config)) ;;
  Ok {| n_iter := n;
        betas_range := range;
        mel_segment_length := seg;
        betas := bs;
        alphas := als;
        alphas_cumprod := acp;
        alphas_cumprod_prev := acp_prev;
        sqrt_alphas_cumprod := map sqrt acp;
        sqrt_alphas_cumprod_prev := map sqrt acp_prev_with_last;
        sqrt_recip_alphas_cumprod := map (fun a => sqrt (1 / a)) acp;
        sqrt_recipm1_alphas_cumprod := map (fun a => sqrt (1 / a - 1)) acp;
        posterior_log_variance_clipped :=
          map (fun v => ln (Rmax v variance_floor)) pv;
        posterior_mean_coef1 :=
          vdiv (vmul bs (map sqrt acp_prev)) (map (fun a => 1 - a) acp);
        posterior_mean_coef2 :=
          vdiv (vmul (map (fun a => 1 - a) acp_prev) (map sqrt als))
               (map (fun a => 1 - a) acp);
        total_factor := total;
        nn := WaveGradNN config |}.

End Construction.

(** ** The random source *)

(** The draws the module makes: numpy's [randint(0, n, size)] (which
    [np.random.choice] uses to pick positions) and [random_sample(size)]
    (which [np.random.uniform] scales), and [torch.randn(b, l)]. *)
Class RandomSource : Type := {
  Gen : Type;
  rand_ints : Z -> nat -> Gen -> list Z * Gen;
  random_sample : nat -> Gen -> Vec * Gen;
  randn : nat -> nat -> Gen -> Wave * Gen
}.

(** What the libraries promise of the draws: their ranges and shapes. *)
Record RandomSourceLaws (RS : RandomSource) : Prop := {
  rand_ints_length : forall n size g, length (fst (rand_ints n size g)) = size;
  rand_ints_range : forall n size g,
    (0 < n)%Z -> Forall (fun k => (0 <= k < n)%Z) (fst (rand_ints n size g));
  random_sample_length : forall size g, length (fst (random_sample size g)) = size;
  random_sample_range : forall size g,
    Forall (fun u => 0 <= u < 1) (fst (random_sample size g));
  randn_shape : forall b l g, wave_shape b l (fst (randn b l g))
}.

(** What [sample] and [sample_subregions_parallel] return: the last state,
    or every state (stacked along a new first axis in the segmented case). *)
Inductive SampleOut : Type :=
| Final (y : Wave)
| States (ys : list Wave).

Section Process.

Context {RS : RandomSource}.

(** [self] *)
Variable m : WaveGrad.

(** [np.random.choice(range(lo, hi), size=size)] *)
Definition np_random_choice_range (lo hi : Z) (size : nat) (g : Gen)
  : result (list Z * Gen) :=
  let pop_size := Z.max 0 (hi - lo) in
  if (pop_size =? 0)%Z && negb (size =? 0)%nat then Raise ValueError
  else let (idx, g') := rand_ints pop_size size g in
       Ok (map (fun i => (lo + i)%Z) idx, g').

(** [np.random.uniform(low, high, size)] from the unit draws [u]. *)
Definition np_uniform (low high u : Vec) : Vec :=
  map2 (fun lh x => fst lh + (snd lh - fst lh) * x) (combine low high) u.

Definition sample_continious_noise_level (batch_size : nat) (g : Gen)
  : result (Vec * Gen) :=
  '(s, g1) <- np_random_choice_range 1 (n_iter m + 1) batch_size g ;;
  low <- py_index_many (sqrt_alphas_cumprod_prev m) (map (fun k => (k - 1)%Z) s) ;;
  high <- py_index_many (sqrt_alphas_cumprod_prev m) s ;;
  let (u, g2) := random_sample batch_size g1 in
  Ok (np_uniform low high u, g2).

(** [torch.randn_like(y)] *)
Definition randn_like (y : Wave) (g : Gen) : Wave * Gen :=
  randn (length y) (length (hd [] y)) g.

(** Lines 82-84 of [q_sample]: which noise level the formula will use. *)
Definition q_sample_level (batch_size : nat)
    (continious_sqrt_alpha_cumprod : option Vec) (eps : option Wave) (g : Gen)
  : result (option Vec * Gen) :=
  match eps with
  | None =>
      '(l, g') <- sample_continious_noise_level batch_size g ;;
      Ok (Some l, g')
  | Some _ => Ok (continious_sqrt_alpha_cumprod, g)
  end.

Definition q_sample (y_0 : Wave) (continious_sqrt_alpha_cumprod : option Vec)
    (eps : option Wave) (g : Gen) : result (Wave * Gen) :=
  let batch_size := length y_0 in
  '(level, g1) <- q_sample_level batch_size continious_sqrt_alpha_cumprod eps g ;;
  let (eps', g2) :=
    match eps with
    | None => randn_like y_0 g1
    | Some e => (e, g1)
    end in
  match level with
  | None => Raise TypeError
  | Some l =>
      Ok (wadd (wscale_rows l y_0)
               (wscale_rows (map (fun c => 1 - c ^ 2) l) eps'), g2)
  end.

Definition q_posterior (y_start y : Wave) (t : Z) : result (Wave * R) :=
  c1 <- py_index (posterior_mean_coef1 m) t ;;
  c2 <- py_index (posterior_mean_coef2 m) t ;;
  let posterior_mean := wadd (wscale c1 y_start) (wscale c2 y) in
  lv <- py_index (posterior_log_variance_clipped m) t ;;
  Ok (posterior_mean, lv).

Definition predict_start_from_noise (y : Wave) (t : Z) (eps : Wave)
  : result Wave :=
  a <- py_index (sqrt_recip_alphas_cumprod m) t ;;
  b <- py_index (sqrt_recipm1_alphas_cumprod m) t ;;
  Ok (wsub (wscale a y) (wscale b eps)).

Definition p_mean_variance (mels : Mels) (y : Wave) (t : Z)
    (clip_denoised : bool) : result (Wave * R) :=
  let batch_size := length (mel_data mels) in
  lvl <- py_index (sqrt_alphas_cumprod_prev m) t ;;
  let noise_level := repeat lvl batch_size in
  let eps_recon := nn m mels y noise_level in
  y_recon <- predict_start_from_noise y t eps_recon ;;
  let y_recon :=
    if clip_denoised then map (map (clamp (-1) 1)) y_recon else y_recon in
  q_posterior y_recon y t.

Definition compute_inverse_dynamics (mels : Mels) (y : Wave) (t : Z)
    (clip_denoised : bool) (g : Gen) : result (Wave * Gen) :=
  '(model_mean, model_log_variance) <- p_mean_variance mels y t clip_denoised ;;
  let (eps, g') :=
    if (0 <? t)%Z then randn_like y g else (zeros_like y, g) in
  Ok (wadd model_mean
           (map (map (fun e => e * exp (0.5 * model_log_variance))) eps), g').

(** The loop of [sample]: [while t >= 0: ...; t -= 1]. *)
Equations? sample_loop (mels : Mels) (t : Z) (ys : list Wave) (g : Gen)
  : result (list Wave * Gen) by wf (Z.to_nat (t + 1)) lt :=
  sample_loop mels t ys g with Z_lt_dec t 0 := {
    | left _ := Ok (ys, g);
    | right _ with compute_inverse_dynamics mels (last ys []) t true g := {
        | Raise e := Raise e;
        | Ok (y_t, g1) := sample_loop mels (t - 1) (ys ++ [y_t]) g1 } }.
Proof. lia. Qed.

(** The second size of [torch.randn(batch_size, T * self.total_factor)]:
    a float size is a type error, a negative one a runtime error. *)
Definition randn_size (T : nat) (total : np_scalar) : result nat :=
  match total with
  | np_float64 _ => Raise TypeError
  | np_int64 k =>
      let n := wrap64 (Z.of_nat T * k) in
      if (n <? 0)%Z then Raise RuntimeError else Ok (Z.to_nat n)
  end.

(** [sample]; [torch.no_grad] and the device of the tensors have no
    counterpart here. *)
Definition sample (mels : Mels) (store_intermediate_states : bool) (g : Gen)
  : result (SampleOut * Gen) :=
  let batch_size := length (mel_data mels) in
  let T := mel_T mels in
  len <- randn_size T (total_factor m) ;;
  let (y, g1) := randn batch_size len g in
  '(ys, g') <- sample_loop mels (n_iter m - 1) [y] g1 ;;
  Ok (if store_intermediate_states then States ys else Final (last ys []), g').

(** [mels.narrow(-1, start, len)] *)
Definition narrow (start len : nat) (mels : Mels) : Mels :=
  mkMels len (map (map (fun row => firstn len (skipn start row))) (mel_data mels)).

(** [mels.split(split_size, dim=-1)] *)
Definition torch_split (mels : Mels) (split_size : Z) : result (list Mels) :=
  if (split_size <? 0)%Z then Raise RuntimeError
  else if (split_size =? 0)%Z && negb (mel_T mels =? 0)%nat then Raise RuntimeError
  else
    let s := Z.to_nat split_size in
    let dim_size := mel_T mels in
    let num_splits :=
      if (s =? 0)%nat then 1%nat else Nat.max ((dim_size + s - 1) / s) 1 in
    let last_split_size := (s - (s * num_splits - dim_size))%nat in
    Ok (map (fun i => narrow (i * s)
                        (if (i <? num_splits - 1)%nat then s else last_split_size)
                        mels)
            (seq 0 num_splits)).

(** [torch.cat(ws, dim=-1)] of tensors [B, L_i], row by row. *)
Fixpoint cat_rows {A : Type} (w : list (list A)) (ws : list (list (list A)))
  : list (list A) :=
  match ws with
  | [] => w
  | w' :: ws' => cat_rows (map2 (@app A) w w') ws'
  end.

Definition cat_last2 (ws : list Wave) : result Wave :=
  match ws with
  | [] => Raise RuntimeError
  | w :: ws' => Ok (cat_rows w ws')
  end.

(** [torch.cat(xs, dim=-1)] of stacked trajectories [S, B, L_i]. *)
Fixpoint cat_planes (x : list Wave) (xs : list (list Wave)) : list Wave :=
  match xs with
  | [] => x
  | x' :: xs' => cat_planes (map2 (map2 (@app R)) x x') xs'
  end.

Definition cat_last3 (xs : list (list Wave)) : result (list Wave) :=
  match xs with
  | [] => Raise RuntimeError
  | x :: xs' => Ok (cat_planes x xs')
  end.

(** The [for split in splits] loop, [recons] growing at its end. *)
Fixpoint subregions_loop (store_intermediate_states : bool)
    (splits : list Mels) (recons : list SampleOut) (g : Gen)
  : result (list SampleOut * Gen) :=
  match splits with
  | [] => Ok (recons, g)
  | split :: rest =>
      '(outputs, g1) <- sample split store_intermediate_states g ;;
      subregions_loop store_intermediate_states rest (recons ++ [outputs]) g1
  end.

Definition out_final (o : SampleOut) : Wave :=
  match o with Final y => y | States _ => [] end.

Definition out_states (o : SampleOut) : list Wave :=
  match o with Final _ => [] | States ys => ys end.

(** [sample_subregions_parallel]: with [store_intermediate_states] every
    chunk's list of states is stacked into one tensor before the
    concatenation. *)
Definition sample_subregions_parallel (mels : Mels)
    (store_intermediate_states : bool) (g : Gen) : result (SampleOut * Gen) :=
  splits <- torch_split mels (mel_segment_length m) ;;
  '(recons, g') <- subregions_loop store_intermediate_states splits [] g ;;
  final_outputs <-
    (if store_intermediate_states
     then xs <- cat_last3 (map out_states recons) ;; Ok (States xs)
     else w <- cat_last2 (map out_final recons) ;; Ok (Final w)) ;;
  Ok (final_outputs, g').

End Process.

(** ** Training: [compute_loss] *)

(** [torch.nn.L1Loss()(x, y)]: the mean of [|x - y|] over all entries.  The
    mean of no entries is nan, here [None]. *)
Definition l1_loss (x y : Wave) : option R :=
  let d := concat (map2 (map2 (fun a b => Rabs (a - b))) x y) in
  if (length d =? 0)%nat then None
  else Some (fold_right Rplus 0 d / INR (length d)).

Section Training.

Context {RS : RandomSource}.

(** [self] *)
Variable m : WaveGrad.

Definition compute_loss (mels : Mels) (y_0 : Wave) (g : Gen)
  : result (option R * Gen) :=
  let batch_size := length y_0 in
  '(continious_sqrt_alpha_cumprod, g1) <-
    sample_continious_noise_level m batch_size g ;;
  let (eps, g2) := randn_like y_0 g1 in
  '(y_noisy, g3) <- q_sample m y_0 (Some continious_sqrt_alpha_cumprod) (Some eps) g2 ;;
  let eps_recon := nn m mels y_noisy continious_sqrt_alpha_cumprod in
  let loss := l1_loss eps_recon eps in
  Ok (loss, g3).

End Training.

(** ** What the specification says, for comparison with the code *)

(** The forward diffusion as the specification words it:
    [noise_level * y0 + sqrt(1 - noise_level^2) * eps]. *)
Definition diffuse_spec (y0 : Wave) (noise_level : Vec) (eps : Wave) : Wave :=
  wadd (wscale_rows noise_level y0)
       (wscale_rows (map (fun c => sqrt (1 - c ^ 2)) noise_level) eps).

(** The reverse chain as the specification words it: [reverse_step] for
    [t = k-1, k-2, ..., 0], each from the state and the generator the step
    before left; the states after each step, in chronological order. *)
Fixpoint reverse_steps_spec {RS : RandomSource} (m : WaveGrad) (mels : Mels)
    (k : nat) (y : Wave) (g : Gen) : result (list Wave * Gen) :=
  match k with
  | O => Ok ([], g)
  | S k' =>
      '(y', g1) <- compute_inverse_dynamics m mels y (Z.of_nat k') true g ;;
      '(rest, g2) <- reverse_steps_spec m mels k' y' g1 ;;
      Ok (y' :: rest, g2)
  end.

(** The plain sampler on every chunk in turn, each on the generator the chunk
    before left: the outputs in chunk order. *)
Fixpoint sample_each_spec {RS : RandomSource} (m : WaveGrad) (store : bool)
    (chunks : list Mels) (g : Gen) : result (list SampleOut * Gen) :=
  match chunks with
  | [] => Ok ([], g)
  | c :: cs =>
      '(o, g1) <- sample m c store g ;;
      '(os, g2) <- sample_each_spec m store cs g1 ;;
      Ok (o :: os, g2)
  end.

(** One more chunk put beside what has been put back so far. *)
Definition beside (acc c : Mels) : Mels :=
  mkMels (mel_T acc + mel_T c) (map2 (map2 (@app R)) (mel_data acc) (mel_data c)).

(** Chunks put back side by side along the time axis. *)
Definition cat_mels (chunks : list Mels) : Mels :=
  match chunks with
  | [] => mkMels 0 []
  | c :: cs => fold_left beside cs c
  end.

(** Pieces [(start, length)] that follow one another without gap or overlap,
    from frame [a]. *)
Fixpoint contiguous (a : nat) (pieces : list (nat * nat)) : Prop :=
  match pieces with
  | [] => True
  | (start, len) :: rest => start = a /\ contiguous (a + len) rest
  end.

(** The number of chunks, the size of the last one and the piece of chunk
    [i] in a split of [mels] with chunk size [s]. *)
Definition split_num (mels : Mels) (s : nat) : nat :=
  Nat.max ((mel_T mels + s - 1) / s) 1.
Definition split_last (mels : Mels) (s : nat) : nat :=
  (s - (s * split_num mels s - mel_T mels))%nat.
Definition split_piece (mels : Mels) (s : nat) (i : nat) : nat * nat :=
  ((i * s)%nat, if (i <? split_num mels s - 1)%nat then s else split_last mels s).



Definition non_increasing : Vec -> Prop := StronglySorted (fun a b => b <= a).

(** The valid hyperparameter triples of the schedule. *)
Definition valid_schedule (n : Z) (range : R * R) : Prop :=
  (0 < n)%Z /\ 0 < fst range /\ fst range < snd range /\ snd range < 1.

(** The buffers that the reverse process indexes by the step have one entry
    per step, and the noise-level table one more. *)
Definition model_wf (m : WaveGrad) : Prop :=
  (0 <= n_iter m)%Z /\
  length (sqrt_alphas_cumprod_prev m) = S (Z.to_nat (n_iter m)) /\
  length (sqrt_recip_alphas_cumprod m) = Z.to_nat (n_iter m) /\
  length (sqrt_recipm1_alphas_cumprod m) = Z.to_nat (n_iter m) /\
  length (posterior_mean_coef1 m) = Z.to_nat (n_iter m) /\
  length (posterior_mean_coef2 m) = Z.to_nat (n_iter m) /\
  length (posterior_log_variance_clipped m) = Z.to_nat (n_iter m).


(** The predictor's contract: its output has the shape of the noisy signal
    it is given. *)
Definition keeps_shape (predictor : Predictor) : Prop :=
  forall mels y noise_level b l,
    wave_shape b l y -> wave_shape b l (predictor mels y noise_level).

(** The result with the generator left out. *)
Definition value_of {A G : Type} (r : result (A * G)) : result A :=
  match r with
  | Ok (a, _) => Ok a
  | Raise e => Raise e
  end.

(** ** A concrete instance *)

Module Demo.

(** A predictor that returns the noisy signal it is given. *)
Definition echo : Config -> Predictor := fun _ _ y _ => y.

(** A generator that counts its draws: every integer drawn is the first of
    its range, every unit draw [0], every normal draw [1]. *)
Definition counting_source : RandomSource :=
  {| Gen := nat;
     rand_ints := fun _ size g => (repeat 0%Z size, S g);
     random_sample := fun size g => (repeat 0 size, S g);
     randn := fun b l g => (repeat (repeat 1 l) b, S g) |}.

(** Two steps, betas from 1/4 to 1/2, segments of two frames, factor 2. *)
Definition config : Config :=
  mkConfig 2 (1 / 4, 1 / 2) 4 2 [2%Z].

Definition empty_model : WaveGrad :=
  mkWaveGrad 0 (0, 0) 0 [] [] [] [] [] [] [] [] [] [] [] (np_int64 0) (fun _ y _ => y).

Definition built (r : result WaveGrad) : WaveGrad :=
  match r with
  | Ok m => m
  | Raise _ => empty_model
  end.

Definition model : WaveGrad := built (init echo config).

(** One batch entry, one mel channel, three frames. *)
Definition mels : Mels := mkMels 3 [[[1; 2; 3]]].

(** Schedules that the specification calls invalid. *)
Definition config_no_steps : Config := mkConfig 0 (1 / 4, 1 / 2) 4 2 [2%Z].
Definition config_equal_betas : Config := mkConfig 2 (1 / 2, 1 / 2) 4 2 [2%Z].
Definition config_betas_outside : Config := mkConfig 2 (-1, 2) 4 2 [2%Z].


(** A feature batch of two frames: one segment of the model above. *)
Definition one_segment : Mels := mkMels 2 [[[1; 2]]].

(** A training segment of one sample, shorter than the hop of two. *)
Definition config_short_segment : Config :=
  mkConfig 2 (1 / 4, 1 / 2) 1 2 [2%Z].

Definition model_short_segment : WaveGrad := built (init echo config_short_segment).

(** The model of the schedule without steps. *)
Definition model_no_steps : WaveGrad := built (init echo config_no_steps).

End Demo.

(** * Properties *)

(** ** The definitions at small inputs *)

Example py_index_last : py_index [1; 2; 3] (-1) = Ok 3.
Proof. reflexivity. Qed.

Example py_index_past_the_end : py_index [1; 2; 3] 3 = Raise IndexError.
Proof. reflexivity. Qed.

Example cumprod_three (a b c : R) : cumprod [a; b; c] = [1 * a; 1 * a * b; 1 * a * b * c].
Proof. reflexivity. Qed.

Example np_product_wraps :
  np_product [4294967296; 4294967297]%Z = np_int64 4294967296.
Proof. reflexivity. Qed.

Example np_product_of_nothing : np_product [] = np_float64 1.
Proof. reflexivity. Qed.

Example init_without_hop : forall NN,
  init NN (mkConfig 2 (1 / 4, 1 / 2) 4 0 [2%Z]) = Raise ZeroDivisionError.
Proof. reflexivity. Qed.

Example init_with_negative_steps : forall NN,
  init NN (mkConfig (-1) (1 / 4, 1 / 2) 4 2 [2%Z]) = Raise RuntimeError.
Proof. reflexivity. Qed.

Example init_with_other_hop : forall NN,
  init NN (mkConfig 2 (1 / 4, 1 / 2) 600 300 [4; 8; 8]%Z) = Raise AssertionError.
Proof. reflexivity. Qed.

Example torch_split_three_frames :
  torch_split Demo.mels 2 = Ok [mkMels 2 [[[1; 2]]]; mkMels 1 [[[3]]]].
Proof. reflexivity. Qed.

Example torch_split_by_zero : torch_split Demo.mels 0 = Raise RuntimeError.
Proof. reflexivity. Qed.

Example cat_last2_two_chunks :
  cat_last2 [[[1; 2]; [5; 6]]; [[3]; [7]]] = Ok [[1; 2; 3]; [5; 6; 7]].
Proof. reflexivity. Qed.

Example segment_length_of_demo : mel_segment_length Demo.model = 2%Z.
Proof. reflexivity. Qed.

(** ** Lists and elementwise operations *)

Lemma map2_length {A B C : Type} (f : A -> B -> C) (xs : list A) (ys : list B) :
  length (map2 f xs ys) = Nat.min (length xs) (length ys).
Proof.
  revert ys. induction xs as [|x xs IH]; intros [|y ys]; simpl; auto.
Qed.

Lemma removelast_length {A : Type} (l : list A) :
  length (removelast l) = (length l - 1)%nat.
Proof.
  induction l as [|a [|b l] IH]; simpl in *; auto. lia.
Qed.

Lemma cumprod_from_length (x : Vec) (acc : R) :
  length (cumprod_from acc x) = length x.
Proof.
  revert acc. induction x as [|a x IH]; intros acc; simpl; auto.
Qed.

Lemma bind_ok {A B : Type} (c : result A) (k : A -> result B) (b : B) :
  bind c k = Ok b -> exists a, c = Ok a /\ k a = Ok b.
Proof.
  destruct c as [a|e]; simpl; intros H; [eauto | discriminate].
Qed.

(** ** The schedule *)

Lemma INR_to_nat (n : Z) : (0 <= n)%Z -> INR (Z.to_nat n) = IZR n.
Proof.
  intros Hn. rewrite INR_IZR_INZ, Z2Nat.id by exact Hn. reflexivity.
Qed.


Lemma linspace_ok (a b : R) (steps : Z) :
  (0 <= steps)%Z -> exists bs, linspace a b steps = Ok bs /\
                               length bs = Z.to_nat steps.
Proof.
  intros Hs. unfold linspace.
  destruct (steps <? 0)%Z eqn:E; [apply Z.ltb_lt in E; lia|].
  eexists. split; [reflexivity|]. rewrite length_map, length_seq. reflexivity.
Qed.





(** What a successful construction has checked and stored. *)
Lemma init_inv (NN : Config -> Predictor) (config : Config) (m : WaveGrad) :
  init NN config = Ok m ->
  exists bs,
    cfg_hop_length config <> 0%Z /\
    linspace (fst (cfg_betas_range config)) (snd (cfg_betas_range config))
             (cfg_n_iter config) = Ok bs /\
    np_eqb (np_product (cfg_factors config)) (cfg_hop_length config) = true /\
    n_iter m = cfg_n_iter config /\
    mel_segment_length m = (cfg_segment_length config / cfg_hop_length config)%Z /\
    total_factor m = np_product (cfg_factors config) /\
    nn m = NN config /\
    betas m = bs /\
    alphas m = map (fun b => 1 - b) bs /\
    alphas_cumprod m = cumprod (alphas m) /\
    alphas_cumprod_prev m = 1 :: removelast (alphas_cumprod m) /\
    sqrt_alphas_cumprod_prev m = map sqrt (1 :: alphas_cumprod m) /\
    sqrt_recip_alphas_cumprod m = map (fun a => sqrt (1 / a)) (alphas_cumprod m) /\
    sqrt_recipm1_alphas_cumprod m = map (fun a => sqrt (1 / a - 1)) (alphas_cumprod m) /\
    length (posterior_log_variance_clipped m) = length (posterior_mean_coef1 m) /\
    length (posterior_mean_coef2 m) = length (posterior_mean_coef1 m) /\
    length (posterior_mean_coef1 m) = length bs.
Proof.
  unfold init, py_floordiv, py_assert. intros H.
  destruct (cfg_hop_length config =? 0)%Z eqn:Ehop; simpl in H; [discriminate|].
  destruct (linspace _ _ _) as [bs|e] eqn:Elin; simpl in H; [|discriminate].
  destruct (np_eqb _ _) eqn:Eeq; simpl in H; [|discriminate].
  injection H as <-. exists bs. simpl.
  apply Z.eqb_neq in Ehop.
  repeat split; auto;
    unfold vdiv, vmul, cumprod;
    repeat (rewrite ?map2_length, ?length_map, ?removelast_length,
              ?cumprod_from_length; simpl length);
    lia.
Qed.





(** Construction succeeds once its three checks pass, whatever the betas. *)
Lemma init_ok (NN : Config -> Predictor) (config : Config) :
  cfg_hop_length config <> 0%Z ->
  (0 <= cfg_n_iter config)%Z ->
  np_eqb (np_product (cfg_factors config)) (cfg_hop_length config) = true ->
  exists m, init NN config = Ok m.
Proof.
  intros Hhop Hn Heq. unfold init, py_floordiv, py_assert.
  apply Z.eqb_neq in Hhop. rewrite Hhop. simpl.
  destruct (linspace_ok (fst (cfg_betas_range config))
              (snd (cfg_betas_range config)) (cfg_n_iter config) Hn) as (bs & -> & _).
  simpl. rewrite Heq. simpl. eexists. reflexivity.
Qed.

(** Each of the three checks, when it fails, makes construction raise. *)
Lemma init_raises_when (NN : Config -> Predictor) (config : Config) :
  cfg_hop_length config = 0%Z \/
  (cfg_n_iter config < 0)%Z \/
  np_eqb (np_product (cfg_factors config)) (cfg_hop_length config) = false ->
  exists e, init NN config = Raise e.
Proof.
  unfold init, py_floordiv, py_assert, linspace.
  intros [Hhop | [Hn | Heq]].
  - rewrite Hhop. simpl. eauto.
  - destruct (cfg_hop_length config =? 0)%Z; simpl; [eauto|].
    apply Z.ltb_lt in Hn. rewrite Hn. simpl. eauto.
  - destruct (cfg_hop_length config =? 0)%Z; simpl; [eauto|].
    destruct (cfg_n_iter config <? 0)%Z; simpl; [eauto|].
    rewrite Heq. simpl. eauto.
Qed.

(** C3, as the code has it: construction validates none of the schedule
    hyperparameters itself.  It raises exactly when the hop length is zero
    (the floor division), when [n_iter] is negative ([torch.linspace] refuses
    the step count) or when the factor check fails; for every [n_iter >= 0]
    and every pair of beta bounds a schedule is produced. *)
Theorem init_raises_iff (NN : Config -> Predictor) (config : Config) :
  (exists e, init NN config = Raise e) <->
  (cfg_hop_length config = 0%Z \/
   (cfg_n_iter config < 0)%Z \/
   np_eqb (np_product (cfg_factors config)) (cfg_hop_length config) = false).
Proof.
  split.
  - intros [e He].
    destruct (Z.eq_dec (cfg_hop_length config) 0) as [|Hhop]; [now left|].
    destruct (Z_lt_dec (cfg_n_iter config) 0) as [|Hn]; [now right; left|].
    destruct (np_eqb (np_product (cfg_factors config)) (cfg_hop_length config))
      eqn:Heq; [|now right; right].
    destruct (init_ok NN config Hhop ltac:(lia) Heq) as [m Hm].
    rewrite Hm in He. discriminate.
  - apply init_raises_when.
Qed.

(** C3 fails on the code: a step count of zero, equal beta bounds and beta
    bounds outside (0,1) all construct a schedule. *)
Lemma init_accepts_invalid_schedules :
  (cfg_n_iter Demo.config_no_steps <=? 0)%Z = true /\
  is_ok (init Demo.echo Demo.config_no_steps) /\
  fst (cfg_betas_range Demo.config_equal_betas) =
    snd (cfg_betas_range Demo.config_equal_betas) /\
  is_ok (init Demo.echo Demo.config_equal_betas) /\
  fst (cfg_betas_range Demo.config_betas_outside) < 0 /\
  1 < snd (cfg_betas_range Demo.config_betas_outside) /\
  is_ok (init Demo.echo Demo.config_betas_outside).
Proof.
  unfold is_ok. simpl.
  repeat split; try reflexivity; try lra; eexists; reflexivity.
Qed.

Lemma wrap64_small (z : Z) : (- 2 ^ 63 <= z < 2 ^ 63)%Z -> wrap64 z = z.
Proof.
  intros Hz. unfold wrap64. rewrite Z.mod_small; lia.
Qed.





(** ** Forward diffusion *)

Section ForwardDiffusion.

Context {RS : RandomSource}.
Variable m : WaveGrad.

(** With both arguments supplied [q_sample] draws nothing and returns
    [l * y_0 + (1 - l^2) * eps]: the second coefficient has no square root. *)
Lemma q_sample_supplied (y_0 : Wave) (l : Vec) (e : Wave) (g : Gen) :
  q_sample m y_0 (Some l) (Some e) g =
  Ok (wadd (wscale_rows l y_0) (wscale_rows (map (fun c => 1 - c ^ 2) l) e), g).
Proof. reflexivity. Qed.

Lemma wscale_rows_ext (f h : R -> R) (l : Vec) (w : Wave) :
  Forall (fun c => f c = h c) l ->
  wscale_rows (map f l) w = wscale_rows (map h l) w.
Proof.
  unfold wscale_rows.
  revert w. induction l as [|c l IH]; intros [|row w] Hl; simpl; auto.
  inversion Hl as [|? ? Hc Hl']; subst.
  rewrite Hc. f_equal. apply IH. exact Hl'.
Qed.

(** Where every noise level is 0 or 1 the code and the specified formula
    agree: there [1 - l^2] is its own square root. *)
Lemma q_sample_agrees_at_0_and_1 (y_0 : Wave) (l : Vec) (e : Wave) (g : Gen) :
  Forall (fun c => c = 0 \/ c = 1) l ->
  q_sample m y_0 (Some l) (Some e) g = Ok (diffuse_spec y_0 l e, g).
Proof.
  intros Hl. rewrite q_sample_supplied. unfold diffuse_spec.
  do 3 f_equal. apply wscale_rows_ext.
  eapply Forall_impl; [|exact Hl]. intros c [-> | ->]; cbv beta.
  - replace (1 - 0 ^ 2) with 1 by ring. rewrite sqrt_1. reflexivity.
  - replace (1 - 1 ^ 2) with 0 by ring. rewrite sqrt_0. reflexivity.
Qed.

Lemma row_mix (a c : R) (r e : list R) :
  length r = length e ->
  map2 Rplus (map (Rmult a) r) (map (Rmult c) e) =
  map2 (fun x z => a * x + c * z) r e.
Proof.
  revert e. induction r as [|x r IH]; intros [|z e] Hlen; simpl in *;
    try discriminate; [reflexivity|].
  rewrite IH by lia. reflexivity.
Qed.

Lemma map2_fst {A B : Type} (f : A -> B -> A) (xs : list A) (ys : list B) :
  length xs = length ys -> (forall x y, f x y = x) -> map2 f xs ys = xs.
Proof.
  intros Hlen Hf. revert ys Hlen.
  induction xs as [|x xs IH]; intros [|y ys] Hlen; simpl in *;
    try discriminate; [reflexivity|].
  rewrite Hf, IH by lia. reflexivity.
Qed.

Lemma map2_snd {A B : Type} (f : A -> B -> B) (xs : list A) (ys : list B) :
  length xs = length ys -> (forall x y, f x y = y) -> map2 f xs ys = ys.
Proof.
  intros Hlen Hf. revert ys Hlen.
  induction xs as [|x xs IH]; intros [|y ys] Hlen; simpl in *;
    try discriminate; [reflexivity|].
  rewrite Hf, IH by lia. reflexivity.
Qed.

(** The two special cases of C1 hold on the code: at noise level 1 the
    result is [y_0], at noise level 0 it is [eps]. *)
Lemma q_sample_at_level_1 (y_0 e : Wave) (g : Gen) :
  Forall2 (fun r z => length r = length z) y_0 e ->
  q_sample m y_0 (Some (repeat 1 (length y_0))) (Some e) g = Ok (y_0, g).
Proof.
  intros Hshape. rewrite q_sample_supplied. do 2 f_equal.
  unfold wadd, wscale_rows.
  induction Hshape as [|r z y_0 e Hr _ IH]; cbn [length repeat map map2];
    [reflexivity|].
  rewrite IH. f_equal. rewrite row_mix by exact Hr.
  apply map2_fst; [exact Hr|]. intros x y. ring.
Qed.

Lemma q_sample_at_level_0 (y_0 e : Wave) (g : Gen) :
  Forall2 (fun r z => length r = length z) y_0 e ->
  q_sample m y_0 (Some (repeat 0 (length y_0))) (Some e) g = Ok (e, g).
Proof.
  intros Hshape. rewrite q_sample_supplied. do 2 f_equal.
  unfold wadd, wscale_rows.
  induction Hshape as [|r z y_0 e Hr _ IH]; cbn [length repeat map map2];
    [reflexivity|].
  rewrite IH. f_equal. rewrite row_mix by exact Hr.
  apply map2_snd; [exact Hr|]. intros x y. ring.
Qed.

(** C1, at the input where the code leaves the claim: for [y_0 = [[0]]],
    noise level [1/2] and [eps = [[1]]] the code returns [3/4], the claimed
    formula [sqrt (3/4)], and the two differ. *)
Theorem q_sample_omits_sqrt (g : Gen) :
  q_sample m [[0]] (Some [1 / 2]) (Some [[1]]) g = Ok ([[3 / 4]], g) /\
  diffuse_spec [[0]] [1 / 2] [[1]] = [[sqrt (3 / 4)]] /\
  sqrt (3 / 4) <> 3 / 4.
Proof.
  split; [|split].
  - rewrite q_sample_supplied. unfold wadd, wscale_rows. simpl.
    do 4 f_equal. field.
  - unfold diffuse_spec, wadd, wscale_rows. simpl. do 2 f_equal.
    replace (1 - 1 / 2 * (1 / 2 * 1)) with (3 / 4) by field. lra.
  - intros H. assert (Hs : sqrt (3 / 4) * sqrt (3 / 4) = 3 / 4)
      by (apply sqrt_sqrt; lra).
    rewrite H in Hs. lra.
Qed.

(** C10: with [eps] supplied and the noise level left at [None], [q_sample]
    draws no level: the level it would use is still [None], the generator is
    where it was, and multiplying [None] with the signal raises.  With [eps]
    supplied the call returns only if the level is supplied too. *)
Theorem q_sample_eps_without_level (y_0 e : Wave) (g : Gen) :
  q_sample_level m (length y_0) None (Some e) g = Ok (None, g) /\
  q_sample m y_0 None (Some e) g = Raise TypeError /\
  (forall level, is_ok (q_sample m y_0 level (Some e) g) <-> level <> None).
Proof.
  split; [reflexivity|]. split; [reflexivity|].
  intros [l|]; split.
  - discriminate.
  - intros _. rewrite q_sample_supplied. eexists. reflexivity.
  - intros [out H]. discriminate H.
  - intros H. contradiction H. reflexivity.
Qed.

(** C2, as the code has it: the gate is on [eps] alone.  With [eps] supplied
    the supplied level is the one used, unchanged, and nothing is drawn; with
    [eps] omitted the level is drawn from the noise-level sampler and then the
    noise from [randn_like], whatever level the caller supplied, so a supplied
    level has no effect on the result. *)
Theorem q_sample_level_gate (y_0 : Wave) (level : option Vec) (g : Gen) :
  (forall e, q_sample_level m (length y_0) level (Some e) g = Ok (level, g)) /\
  q_sample m y_0 level None g =
    ('(l, g1) <- sample_continious_noise_level m (length y_0) g ;;
     Ok (wadd (wscale_rows l y_0)
              (wscale_rows (map (fun c => 1 - c ^ 2) l) (fst (randn_like y_0 g1))),
         snd (randn_like y_0 g1))) /\
  q_sample m y_0 level None g = q_sample m y_0 None None g.
Proof.
  split; [reflexivity|]. split; [|reflexivity].
  unfold q_sample, q_sample_level.
  destruct (sample_continious_noise_level m (length y_0) g) as [[l g1]|e];
    simpl; [|reflexivity].
  destruct (randn_like y_0 g1) as [eps g2]. reflexivity.
Qed.

End ForwardDiffusion.

(** C2 fails on the code: with [eps] omitted and the level [0] supplied, the
    counting generator makes the sampler draw the level 1, and the result is
    [y_0 = [[2]]]; the supplied level would have given the drawn noise,
    [[1]]. *)
Lemma q_sample_discards_supplied_level :
  q_sample (RS := Demo.counting_source) Demo.model [[2]] (Some [0]) None 0%nat
    = Ok ([[2]], 3%nat) /\
  wadd (wscale_rows [0] [[2]])
       (wscale_rows (map (fun c => 1 - c ^ 2) [0])
          (fst (randn_like (RS := Demo.counting_source) [[2]] 0%nat)))
    = [[1]] /\
  [[2]] <> [[1]].
Proof.
  split; [|split].
  - unfold q_sample, q_sample_level, sample_continious_noise_level,
      np_random_choice_range. simpl.
    unfold py_index, wadd, wscale_rows, np_uniform. simpl.
    rewrite sqrt_1. do 4 f_equal. ring.
  - unfold wadd, wscale_rows. simpl. do 2 f_equal. ring.
  - intros H. injection H as H. lra.
Qed.

(** ** Indexing the buffers of a constructed model *)

Lemma py_index_in_range (x : Vec) (t : Z) :
  (0 <= t < Z.of_nat (length x))%Z -> py_index x t = Ok (nth (Z.to_nat t) x 0).
Proof.
  intros [H0 H1]. unfold py_index.
  apply Z.leb_le in H0. apply Z.ltb_lt in H1. rewrite H0, H1. reflexivity.
Qed.

Lemma py_index_many_in_range (x : Vec) (s : list Z) :
  Forall (fun t => (0 <= t < Z.of_nat (length x))%Z) s ->
  py_index_many x s = Ok (map (fun t => nth (Z.to_nat t) x 0) s).
Proof.
  induction s as [|t s IH]; intros Hs; simpl; [reflexivity|].
  inversion Hs as [|? ? Ht Hs']; subst.
  rewrite py_index_in_range by exact Ht. simpl.
  rewrite IH by exact Hs'. reflexivity.
Qed.

Lemma init_model_wf (NN : Config -> Predictor) (config : Config) (m : WaveGrad) :
  init NN config = Ok m -> model_wf m.
Proof.
  intros Hinit.
  destruct (init_inv _ _ _ Hinit)
    as (bs & _ & Hlin & _ & Hni & _ & _ & _ & Hb & Ha & Hacp & Hprev & Htab
        & Hrec & Hrecm1 & Hlv & Hc2 & Hc1).
  assert (Hn : (0 <= cfg_n_iter config)%Z).
  { unfold linspace in Hlin.
    destruct (cfg_n_iter config <? 0)%Z eqn:E; [discriminate|].
    apply Z.ltb_ge in E. exact E. }
  assert (Hlen : length bs = Z.to_nat (n_iter m)).
  { destruct (linspace_ok (fst (cfg_betas_range config))
                (snd (cfg_betas_range config)) (cfg_n_iter config) Hn)
      as (bs' & E & L).
    rewrite Hlin in E. injection E as <-. rewrite Hni. exact L. }
  assert (Hacplen : length (alphas_cumprod m) = Z.to_nat (n_iter m)).
  { rewrite Hacp. unfold cumprod.
    rewrite cumprod_from_length, Ha, length_map. exact Hlen. }
  unfold model_wf. rewrite Htab, Hrec, Hrecm1, Hlv, Hc2, Hc1.
  simpl. rewrite !length_map, Hacplen, Hlen, Hni. auto 10.
Qed.


(** ** The round trip of the specified diffusion *)



Lemma nth_map_in_range {A : Type} (f : A -> R) (l : list A) (d : A) (i : nat) :
  (i < length l)%nat -> nth i (map f l) 0 = f (nth i l d).
Proof.
  intros Hi. rewrite (nth_indep _ 0 (f d)) by (rewrite length_map; exact Hi).
  apply map_nth.
Qed.


(** ** The noise-level sampler *)

Lemma np_uniform_map (f h : Z -> R) (s : list Z) (u : Vec) :
  map2 (fun lh x => fst lh + (snd lh - fst lh) * x)
       (combine (map f s) (map h s)) u =
  map2 (fun k x => f k + (h k - f k) * x) s u.
Proof.
  revert u. induction s as [|k s IH]; intros [|x u]; simpl; auto.
  rewrite IH. reflexivity.
Qed.

Lemma map2_Forall {A B C : Type} (f : A -> B -> C) (P : A -> Prop)
    (Q : B -> Prop) (T : C -> Prop) (xs : list A) (ys : list B) :
  (forall x y, P x -> Q y -> T (f x y)) ->
  Forall P xs -> Forall Q ys -> Forall T (map2 f xs ys).
Proof.
  intros Hf Hxs. revert ys.
  induction Hxs as [|x xs Hx Hxs IH]; intros ys Hys; simpl; [constructor|].
  destruct Hys as [|y ys Hy Hys]; constructor; auto.
Qed.

Section NoiseLevel.

Context {RS : RandomSource}.
Hypothesis laws : RandomSourceLaws RS.


End NoiseLevel.

(** ** The reverse step *)

Section ReverseProcess.

Context {RS : RandomSource}.
Variable m : WaveGrad.

Lemma p_mean_variance_ok (mels : Mels) (y : Wave) (t : Z) (clip : bool) :
  model_wf m -> (0 <= t < n_iter m)%Z ->
  exists mean lv, p_mean_variance m mels y t clip = Ok (mean, lv).
Proof.
  intros (Hn & Htab & Hrec & Hrecm1 & Hc1 & Hc2 & Hlv) Ht.
  unfold p_mean_variance, predict_start_from_noise, q_posterior.
  rewrite (py_index_in_range (sqrt_alphas_cumprod_prev m)) by (rewrite Htab; lia).
  cbn [bind].
  rewrite (py_index_in_range (sqrt_recip_alphas_cumprod m)) by (rewrite Hrec; lia).
  rewrite (py_index_in_range (sqrt_recipm1_alphas_cumprod m)) by (rewrite Hrecm1; lia).
  cbn [bind].
  rewrite (py_index_in_range (posterior_mean_coef1 m)) by (rewrite Hc1; lia).
  rewrite (py_index_in_range (posterior_mean_coef2 m)) by (rewrite Hc2; lia).
  rewrite (py_index_in_range (posterior_log_variance_clipped m)) by (rewrite Hlv; lia).
  cbn [bind]. eauto.
Qed.

Lemma compute_inverse_dynamics_ok (mels : Mels) (y : Wave) (t : Z)
    (clip : bool) (g : Gen) :
  model_wf m -> (0 <= t < n_iter m)%Z ->
  exists out g', compute_inverse_dynamics m mels y t clip g = Ok (out, g').
Proof.
  intros Hwf Ht. unfold compute_inverse_dynamics.
  destruct (p_mean_variance_ok mels y t clip Hwf Ht) as (mean & lv & ->).
  cbn [bind]. destruct (if (0 <? t)%Z then _ else _) as [eps g']. eauto.
Qed.


(** C6: the reverse step at [t = 0] does not read the generator.  Its
    result, an output or an exception, is the same for every generator
    state, the state is handed back untouched, and the output is
    [mean + z * exp (0.5 * log_variance)] with [z] the zero tensor; the
    noise is a [randn_like] draw only when [t > 0].  On a constructed
    model with at least one step it does return an output. *)
Theorem reverse_step_final_deterministic (mels : Mels) (y : Wave) (clip : bool) :
  (forall g1 g2,
     value_of (compute_inverse_dynamics m mels y 0 clip g1) =
     value_of (compute_inverse_dynamics m mels y 0 clip g2)) /\
  (forall g,
     compute_inverse_dynamics m mels y 0 clip g =
     ('(mean, lv) <- p_mean_variance m mels y 0 clip ;;
      Ok (wadd mean (map (map (fun e => e * exp (0.5 * lv))) (zeros_like y)), g))) /\
  (forall t g, (0 < t)%Z ->
     compute_inverse_dynamics m mels y t clip g =
     ('(mean, lv) <- p_mean_variance m mels y t clip ;;
      Ok (wadd mean (map (map (fun e => e * exp (0.5 * lv))) (fst (randn_like y g))),
          snd (randn_like y g)))) /\
  (model_wf m -> (0 < n_iter m)%Z ->
   exists out, forall g, compute_inverse_dynamics m mels y 0 clip g = Ok (out, g)).
Proof.
  assert (H0 : forall g,
     compute_inverse_dynamics m mels y 0 clip g =
     ('(mean, lv) <- p_mean_variance m mels y 0 clip ;;
      Ok (wadd mean (map (map (fun e => e * exp (0.5 * lv))) (zeros_like y)), g))).
  { intros g. unfold compute_inverse_dynamics.
    destruct (p_mean_variance m mels y 0 clip) as [[mean lv]|e]; reflexivity. }
  split; [|split; [exact H0|split]].
  - intros g1 g2. rewrite (H0 g1), (H0 g2).
    destruct (p_mean_variance m mels y 0 clip) as [[mean lv]|e]; reflexivity.
  - intros t g Ht. unfold compute_inverse_dynamics.
    apply Z.ltb_lt in Ht. rewrite Ht.
    destruct (p_mean_variance m mels y t clip) as [[mean lv]|e]; cbn [bind];
      [|reflexivity].
    destruct (randn_like y g) as [eps g']. reflexivity.
  - intros Hwf Hn.
    destruct (p_mean_variance_ok mels y 0 clip Hwf ltac:(lia)) as (mean & lv & E).
    eexists. intros g. rewrite H0, E. reflexivity.
Qed.

(** ** The sampler *)

Lemma sample_loop_step (mels : Mels) (t : Z) (ys : list Wave) (g : Gen) :
  sample_loop m mels t ys g =
  if Z_lt_dec t 0 then Ok (ys, g)
  else '(y_t, g1) <- compute_inverse_dynamics m mels (last ys []) t true g ;;
       sample_loop m mels (t - 1) (ys ++ [y_t]) g1.
Proof.
  rewrite sample_loop_equation_1.
  destruct (Z_lt_dec t 0) as [Hlt|Hge]; simpl; [reflexivity|].
  destruct (compute_inverse_dynamics m mels (last ys []) t true g) as [[y_t g1]|e];
    reflexivity.
Qed.

(** The loop is the specified chain: from the last state so far, the reverse
    step for [t = k-1, ..., 0], the new states appended in order. *)
Lemma sample_loop_chain (mels : Mels) (k : nat) : forall ys g,
  sample_loop m mels (Z.of_nat k - 1) ys g =
  ('(rest, g') <- reverse_steps_spec m mels k (last ys []) g ;;
   Ok (ys ++ rest, g')).
Proof.
  induction k as [|k IH]; intros ys g; rewrite sample_loop_step.
  - destruct (Z_lt_dec (Z.of_nat 0 - 1) 0) as [_|H]; [|simpl in H; lia].
    simpl. rewrite app_nil_r. reflexivity.
  - destruct (Z_lt_dec (Z.of_nat (S k) - 1) 0) as [H|_]; [lia|].
    replace (Z.of_nat (S k) - 1)%Z with (Z.of_nat k) by lia.
    cbn [reverse_steps_spec].
    destruct (compute_inverse_dynamics m mels (last ys []) (Z.of_nat k) true g)
      as [[y_t g1]|e]; cbn [bind]; [|reflexivity].
    rewrite IH, last_last.
    destruct (reverse_steps_spec m mels k y_t g1) as [[rest g2]|e]; cbn [bind];
      [|reflexivity].
    rewrite <- app_assoc. reflexivity.
Qed.

Lemma reverse_steps_ok (mels : Mels) (k : nat) : forall y g,
  model_wf m -> (Z.of_nat k <= n_iter m)%Z ->
  exists ys g', reverse_steps_spec m mels k y g = Ok (ys, g') /\ length ys = k.
Proof.
  induction k as [|k IH]; intros y g Hwf Hk; simpl.
  - exists [], g. auto.
  - destruct (compute_inverse_dynamics_ok mels y (Z.of_nat k) true g Hwf)
      as (y' & g1 & ->); [lia|]. cbn [bind].
    destruct (IH y' g1 Hwf) as (rest & g2 & -> & Hlen); [lia|]. cbn [bind].
    exists (y' :: rest), g2. simpl. auto.
Qed.

End ReverseProcess.

Section Sampler.

Context {RS : RandomSource}.
Hypothesis laws : RandomSourceLaws RS.
Variable m : WaveGrad.

Lemma randn_size_ok (T : nat) (k : Z) :
  (0 <= Z.of_nat T * k < 2 ^ 63)%Z ->
  randn_size T (np_int64 k) = Ok (Z.to_nat (Z.of_nat T * k)).
Proof.
  intros Hr. unfold randn_size. rewrite wrap64_small by lia.
  destruct (Z.of_nat T * k <? 0)%Z eqn:E; [apply Z.ltb_lt in E; lia|].
  reflexivity.
Qed.

(** What [sample] returns, in terms of the specified chain. *)
Lemma sample_chain (mels : Mels) (store : bool) (g : Gen) (k : Z) :
  (0 <= n_iter m)%Z ->
  total_factor m = np_int64 k ->
  (0 <= Z.of_nat (mel_T mels) * k < 2 ^ 63)%Z ->
  let noise := randn (length (mel_data mels)) (Z.to_nat (Z.of_nat (mel_T mels) * k)) g in
  sample m mels store g =
  ('(rest, g') <- reverse_steps_spec m mels (Z.to_nat (n_iter m)) (fst noise) (snd noise) ;;
   Ok (if store then States (fst noise :: rest)
       else Final (last (fst noise :: rest) []), g')).
Proof.
  intros Hn Htot Hr noise. unfold sample.
  rewrite Htot, randn_size_ok by exact Hr. cbn [bind].
  fold noise. destruct noise as [y g1]. cbn [fst snd].
  replace (n_iter m - 1)%Z with (Z.of_nat (Z.to_nat (n_iter m)) - 1)%Z by lia.
  rewrite sample_loop_chain. cbn [last].
  destruct (reverse_steps_spec m mels (Z.to_nat (n_iter m)) y g1)
    as [[rest g2]|e]; reflexivity.
Qed.

(** [sample] returns on every input whose noise tensor has a size. *)
Lemma sample_ok (mels : Mels) (store : bool) (g : Gen) (k : Z) :
  model_wf m ->
  total_factor m = np_int64 k ->
  (0 <= Z.of_nat (mel_T mels) * k < 2 ^ 63)%Z ->
  exists out g', sample m mels store g = Ok (out, g').
Proof.
  intros Hwf Htot Hr.
  rewrite (sample_chain mels store g k (proj1 Hwf) Htot Hr).
  destruct (reverse_steps_ok m mels (Z.to_nat (n_iter m))
              (fst (randn (length (mel_data mels))
                      (Z.to_nat (Z.of_nat (mel_T mels) * k)) g))
              (snd (randn (length (mel_data mels))
                      (Z.to_nat (Z.of_nat (mel_T mels) * k)) g)) Hwf)
    as (rest & g' & -> & _); [destruct Hwf; lia|].
  cbn [bind]. eauto.
Qed.

(** C5: on a constructed model whose total factor is the integer [k],
    [sample] with [store_intermediate_states = True] returns [n_iter + 1]
    states.  The first is the initial [randn] draw, of [batch_size] rows of
    [T * k] samples; the others are the results of the reverse step for
    [t = n_iter - 1] down to [0], each applied to the state and generator the
    step before left; and the last state is what [sample] returns without
    storing, from the same generator state. *)
Theorem sample_stores_every_state (NN : Config -> Predictor) (config : Config)
    (mels : Mels) (g : Gen) (k : Z) :
  init NN config = Ok m ->
  total_factor m = np_int64 k ->
  (0 <= Z.of_nat (mel_T mels) * k < 2 ^ 63)%Z ->
  let batch_size := length (mel_data mels) in
  let len := (mel_T mels * Z.to_nat k)%nat in
  let noise := fst (randn batch_size len g) in
  exists ys g',
    sample m mels true g = Ok (States (noise :: ys), g') /\
    wave_shape batch_size len noise /\
    reverse_steps_spec m mels (Z.to_nat (n_iter m)) noise
      (snd (randn batch_size len g)) = Ok (ys, g') /\
    length (noise :: ys) = (Z.to_nat (n_iter m) + 1)%nat /\
    sample m mels false g = Ok (Final (last (noise :: ys) []), g').
Proof.
  intros Hinit Htot Hr batch_size len noise.
  pose proof (init_model_wf _ _ _ Hinit) as Hwf.
  assert (Hlen : Z.to_nat (Z.of_nat (mel_T mels) * k) = len).
  { unfold len. destruct (Z_lt_dec k 0) as [Hk|Hk].
    - assert (mel_T mels = 0%nat) by nia. subst. nia.
    - rewrite Z2Nat.inj_mul, Nat2Z.id by lia. reflexivity. }
  pose proof (sample_chain mels true g k (proj1 Hwf) Htot Hr) as Ht.
  pose proof (sample_chain mels false g k (proj1 Hwf) Htot Hr) as Hf.
  cbv zeta in Ht, Hf. rewrite Hlen in Ht, Hf.
  fold batch_size in Ht, Hf. fold noise in Ht, Hf.
  destruct (reverse_steps_ok m mels (Z.to_nat (n_iter m)) noise
              (snd (randn batch_size len g)) Hwf)
    as (ys & g' & E & Hys); [destruct Hwf; lia|].
  rewrite E in Ht, Hf. cbn [bind] in Ht, Hf.
  exists ys, g'.
  split; [exact Ht|].
  split; [apply (randn_shape RS laws)|].
  split; [exact E|].
  split; [simpl; lia | exact Hf].
Qed.

End Sampler.

(** ** Splitting into segments *)

(** The sizes [torch.split] computes: at least one chunk, all of [s] frames
    but the last, which takes what is left. *)
Lemma split_sizes (T s : nat) :
  (0 < s)%nat ->
  let num := Nat.max ((T + s - 1) / s) 1 in
  let last_size := (s - (s * num - T))%nat in
  (1 <= num)%nat /\ (s * (num - 1) + last_size = T)%nat /\
  (last_size <= s)%nat /\ ((0 < T)%nat -> (0 < last_size)%nat).
Proof.
  intros Hs num last_size.
  pose proof (Nat.div_mod (T + s - 1) s ltac:(lia)) as Hdm.
  pose proof (Nat.mod_upper_bound (T + s - 1) s ltac:(lia)) as Hub.
  set (q := ((T + s - 1) / s)%nat) in *.
  set (r := ((T + s - 1) mod s)%nat) in *.
  destruct (Nat.eq_dec T 0) as [->|HT].
  - assert (q = 0%nat) by nia.
    assert (num = 1%nat) by (unfold num; fold q; lia).
    unfold last_size. rewrite H0. lia.
  - assert (Hq : (1 <= q)%nat) by nia.
    assert (num = q) by (unfold num; fold q; lia).
    unfold last_size. rewrite H. nia.
Qed.

Lemma firstn_add_skipn {A : Type} (a l : nat) (r : list A) :
  firstn a r ++ firstn l (skipn a r) = firstn (a + l) r.
Proof.
  revert r. induction a as [|a IH]; intros [|x r]; simpl; auto.
  - destruct l; reflexivity.
  - rewrite IH. reflexivity.
Qed.

Lemma map2_map_same {A B C D : Type} (f : B -> C -> D) (p : A -> B)
    (q : A -> C) (d : list A) :
  map2 f (map p d) (map q d) = map (fun x => f (p x) (q x)) d.
Proof.
  induction d as [|x d IH]; simpl; [reflexivity|]. rewrite IH. reflexivity.
Qed.

Section Segments.

Variable mels : Mels.

Lemma beside_narrow (a l : nat) :
  beside (narrow 0 a mels) (narrow a l mels) = narrow 0 (a + l) mels.
Proof.
  unfold beside, narrow. cbn [mel_T mel_data]. f_equal.
  rewrite map2_map_same. apply map_ext. intros plane.
  rewrite map2_map_same. apply map_ext. intros row.
  cbn [skipn]. apply firstn_add_skipn.
Qed.

Lemma fold_beside_narrow (pieces : list (nat * nat)) : forall a,
  contiguous a pieces ->
  fold_left beside (map (fun p => narrow (fst p) (snd p) mels) pieces)
            (narrow 0 a mels) =
  narrow 0 (a + list_sum (map snd pieces)) mels.
Proof.
  induction pieces as [|[start len] rest IH]; intros a Hc; simpl.
  - rewrite Nat.add_0_r. reflexivity.
  - destruct Hc as [-> Hc]. rewrite beside_narrow, IH by exact Hc.
    f_equal. lia.
Qed.

Lemma narrow_all : mels_wf mels -> narrow 0 (mel_T mels) mels = mels.
Proof.
  unfold mels_wf, narrow. destruct mels as [T data]. cbn [mel_T mel_data].
  intros Hwf. f_equal.
  rewrite <- (map_id data) at 2. apply map_ext_in. intros plane Hp.
  rewrite <- (map_id plane) at 2. apply map_ext_in. intros row Hr.
  rewrite Forall_forall in Hwf. specialize (Hwf plane Hp).
  rewrite Forall_forall in Hwf. specialize (Hwf row Hr).
  cbn [skipn]. apply firstn_all2. lia.
Qed.

Lemma narrow_wf (start len : nat) :
  mels_wf mels -> (start + len <= mel_T mels)%nat ->
  mels_wf (narrow start len mels).
Proof.
  unfold mels_wf, narrow. cbn [mel_T mel_data]. intros Hwf Hle.
  apply Forall_forall. intros plane Hp.
  apply in_map_iff in Hp. destruct Hp as [plane' [<- Hp]].
  apply Forall_forall. intros row Hr.
  apply in_map_iff in Hr. destruct Hr as [row' [<- Hr]].
  rewrite Forall_forall in Hwf. specialize (Hwf plane' Hp).
  rewrite Forall_forall in Hwf. specialize (Hwf row' Hr).
  rewrite length_firstn, length_skipn. lia.
Qed.

Variable s : nat.
Hypothesis s_pos : (0 < s)%nat.

Lemma split_pieces_contiguous (n : nat) : forall i,
  (i + n = (split_num mels s))%nat -> contiguous (i * s) (map (split_piece mels s) (seq i n)).
Proof.
  induction n as [|n IH]; intros i Hi; simpl; [exact I|].
  split; [reflexivity|].
  destruct n as [|n]; [exact I|].
  destruct (i <? (split_num mels s) - 1)%nat eqn:E; [|apply Nat.ltb_ge in E; lia].
  replace (i * s + s)%nat with (S i * s)%nat by lia.
  apply IH. lia.
Qed.

Lemma split_pieces_sum (n : nat) : forall i,
  (i + S n = (split_num mels s))%nat ->
  (i * s + list_sum (map snd (map (split_piece mels s) (seq i (S n)))) = mel_T mels)%nat.
Proof.
  pose proof (split_sizes (mel_T mels) s s_pos) as (H1 & Hsum & Hle & _).
  fold (split_num mels s) in H1, Hsum, Hle. fold (split_last mels s) in Hsum, Hle.
  induction n as [|n IH]; intros i Hi.
  - cbn [seq map snd split_piece].
    destruct (i <? (split_num mels s) - 1)%nat eqn:E; [apply Nat.ltb_lt in E; lia|].
    replace i with ((split_num mels s) - 1)%nat by lia. unfold list_sum. cbn [fold_right]. lia.
  - specialize (IH (S i) ltac:(lia)).
    change (seq i (S (S n))) with (i :: seq (S i) (S n)).
    cbn [map snd split_piece].
    destruct (i <? (split_num mels s) - 1)%nat eqn:E; [|apply Nat.ltb_ge in E; lia].
    cbn [map] in IH. unfold list_sum in *. cbn [fold_right] in *. lia.
Qed.

Lemma split_pieces_fit (i : nat) :
  (i < (split_num mels s))%nat ->
  (fst ((split_piece mels s) i) + snd ((split_piece mels s) i) <= mel_T mels)%nat.
Proof.
  pose proof (split_sizes (mel_T mels) s s_pos) as (H1 & Hsum & Hle & _).
  fold (split_num mels s) in H1, Hsum, Hle. fold (split_last mels s) in Hsum, Hle.
  intros Hi. unfold split_piece. cbn [fst snd].
  destruct (i <? (split_num mels s) - 1)%nat eqn:E.
  - apply Nat.ltb_lt in E. nia.
  - apply Nat.ltb_ge in E. replace i with ((split_num mels s) - 1)%nat by lia. nia.
Qed.

Lemma torch_split_pieces :
  torch_split mels (Z.of_nat s) =
  Ok (map (fun p => narrow (fst p) (snd p) mels)
          (map (split_piece mels s) (seq 0 (split_num mels s)))).
Proof.
  unfold torch_split.
  destruct (Z.of_nat s <? 0)%Z eqn:E1; [apply Z.ltb_lt in E1; lia|].
  destruct (Z.of_nat s =? 0)%Z eqn:E2; [apply Z.eqb_eq in E2; lia|].
  cbn [andb]. rewrite Nat2Z.id.
  destruct (s =? 0)%nat eqn:E3; [apply Nat.eqb_eq in E3; lia|].
  rewrite map_map. reflexivity.
Qed.

(** The chunks of [torch.split]: consecutive, without overlap or padding,
    all of [s] frames except the last, which is not longer than [s] and not
    empty unless the whole input is. *)
Lemma torch_split_chunks :
  mels_wf mels ->
  exists chunks,
    torch_split mels (Z.of_nat s) = Ok chunks /\
    chunks <> [] /\
    cat_mels chunks = mels /\
    Forall mels_wf chunks /\
    Forall (fun c => (mel_T c <= mel_T mels)%nat) chunks /\
    Forall (fun c => mel_T c = s) (removelast chunks) /\
    (mel_T (last chunks mels) <= s)%nat /\
    ((0 < mel_T mels)%nat -> (0 < mel_T (last chunks mels))%nat).
Proof.
  intros Hwf.
  pose proof (split_sizes (mel_T mels) s s_pos) as (H1 & Hsum & Hle & Hpos).
  fold (split_num mels s) in H1, Hsum, Hle, Hpos. fold (split_last mels s) in Hsum, Hle, Hpos.
  eexists. split; [apply torch_split_pieces|].
  destruct (split_num mels s) as [|n] eqn:En; [lia|].
  split; [simpl; discriminate|].
  split.
  { change (seq 0 (S n)) with (0%nat :: seq 1 n). cbn [map cat_mels].
    change (fold_left _ ?l ?a) with (fold_left beside l a).
    assert (Hfirst : fst ((split_piece mels s) 0) = 0%nat) by reflexivity.
    rewrite Hfirst.
    destruct n as [|n].
    - simpl. unfold split_piece. rewrite En. simpl.
      replace (split_last mels s) with (mel_T mels) by lia. apply narrow_all, Hwf.
    - rewrite fold_beside_narrow.
      + pose proof (split_pieces_sum n 1 ltac:(lia)) as Hs.
        assert (Hs0 : snd ((split_piece mels s) 0) = s).
        { unfold split_piece. rewrite En. reflexivity. }
        rewrite Hs0. replace (s + _)%nat with (mel_T mels) by lia.
        apply narrow_all, Hwf.
      + assert (Hs0 : snd ((split_piece mels s) 0) = (1 * s)%nat).
        { unfold split_piece. rewrite En. simpl. lia. }
        rewrite Hs0. apply split_pieces_contiguous. lia. }
  assert (Hfit : forall i, In i (seq 0 (S n)) ->
                   (fst ((split_piece mels s) i) + snd ((split_piece mels s) i) <= mel_T mels)%nat).
  { intros i Hi. apply in_seq in Hi. apply split_pieces_fit. lia. }
  split.
  { apply Forall_forall. intros c Hc.
    apply in_map_iff in Hc. destruct Hc as [p [<- Hp]].
    apply in_map_iff in Hp. destruct Hp as [i [<- Hi]].
    apply narrow_wf; [exact Hwf | apply Hfit, Hi]. }
  split.
  { apply Forall_forall. intros c Hc.
    apply in_map_iff in Hc. destruct Hc as [p [<- Hp]].
    apply in_map_iff in Hp. destruct Hp as [i [<- Hi]].
    specialize (Hfit i Hi). cbn [narrow mel_T]. lia. }
  rewrite seq_S, !map_app. cbn [map Nat.add].
  rewrite removelast_last, last_last.
  split.
  { apply Forall_forall. intros c Hc.
    apply in_map_iff in Hc. destruct Hc as [p [<- Hp]].
    apply in_map_iff in Hp. destruct Hp as [i [<- Hi]].
    apply in_seq in Hi. cbn [narrow mel_T split_piece snd]. rewrite En.
    destruct (i <? S n - 1)%nat eqn:E; [reflexivity|].
    apply Nat.ltb_ge in E. lia. }
  cbn [narrow mel_T split_piece snd]. rewrite En.
  destruct (n <? S n - 1)%nat eqn:E; [apply Nat.ltb_lt in E; lia|].
  split; [exact Hle | exact Hpos].
Qed.

End Segments.

(** ** Concatenation along the last axis *)

Lemma map2_nth {A B C : Type} (f : A -> B -> C) (xs : list A) (ys : list B)
    (dx : A) (dy : B) (d : C) : forall b,
  (b < length xs)%nat -> (b < length ys)%nat ->
  nth b (map2 f xs ys) d = f (nth b xs dx) (nth b ys dy).
Proof.
  revert ys. induction xs as [|x xs IH]; intros [|y ys] b Hx Hy;
    simpl in *; try lia.
  destruct b as [|b]; [reflexivity|]. apply IH; lia.
Qed.

(** Row [b] of [torch.cat(w :: ws, dim=-1)] is the rows [b] of the parts,
    one after the other in the order of the list. *)
Lemma cat_rows_nth {A : Type} (ws : list (list (list A))) : forall w b,
  (b < length w)%nat -> Forall (fun w' => (b < length w')%nat) ws ->
  nth b (cat_rows w ws) [] = concat (map (fun w' => nth b w' []) (w :: ws)).
Proof.
  induction ws as [|w' ws IH]; intros w b Hb Hall; cbn [cat_rows map concat].
  - rewrite app_nil_r. reflexivity.
  - inversion Hall as [|? ? Hb' Hall']; subst.
    rewrite IH; [|rewrite map2_length; lia|exact Hall'].
    cbn [map concat].
    rewrite (map2_nth (@app A) w w' [] [] []) by assumption.
    rewrite app_assoc. reflexivity.
Qed.

Lemma cat_planes_nth (xs : list (list Wave)) : forall x t b,
  (t < length x)%nat -> (b < length (nth t x []))%nat ->
  Forall (fun x' => (t < length x')%nat /\ (b < length (nth t x' []))%nat) xs ->
  nth b (nth t (cat_planes x xs) []) [] =
  concat (map (fun x' => nth b (nth t x' []) []) (x :: xs)).
Proof.
  induction xs as [|x' xs IH]; intros x t b Ht Hb Hall;
    cbn [cat_planes map concat].
  - rewrite app_nil_r. reflexivity.
  - inversion Hall as [|? ? [Ht' Hb'] Hall']; subst. cbv beta in Ht', Hb'.
    assert (Hplane : nth t (map2 (map2 (@app R)) x x') [] =
                     map2 (@app R) (nth t x []) (nth t x' []))
      by (apply map2_nth; assumption).
    rewrite IH; [| rewrite map2_length; lia
                 | rewrite Hplane, map2_length; unfold Wave in *; lia | exact Hall'].
    cbn [map concat]. rewrite Hplane.
    rewrite (map2_nth (@app R) _ _ [] [] []) by assumption.
    rewrite app_assoc. reflexivity.
Qed.

(** ** The segmented sampler *)

Section SegmentedSampler.

Context {RS : RandomSource}.
Variable m : WaveGrad.

(** The loop over the chunks is the plain sampler on each chunk in turn. *)
Lemma subregions_loop_each (store : bool) (splits : list Mels) :
  forall recons g,
    subregions_loop m store splits recons g =
    ('(outs, g') <- sample_each_spec m store splits g ;; Ok (recons ++ outs, g')).
Proof.
  induction splits as [|c cs IH]; intros recons g;
    cbn [subregions_loop sample_each_spec bind].
  - rewrite app_nil_r. reflexivity.
  - destruct (sample m c store g) as [[o g1]|e]; cbn [bind]; [|reflexivity].
    rewrite IH.
    destruct (sample_each_spec m store cs g1) as [[os g2]|e]; cbn [bind];
      [|reflexivity].
    rewrite <- app_assoc. reflexivity.
Qed.

Lemma sample_kind (c : Mels) (store : bool) (g g' : Gen) (o : SampleOut) :
  sample m c store g = Ok (o, g') ->
  if store then exists ys, o = States ys else exists y, o = Final y.
Proof.
  unfold sample. intros H.
  apply bind_ok in H. destruct H as (len & _ & H).
  destruct (randn (length (mel_data c)) len g) as [y g1].
  apply bind_ok in H. destruct H as ([ys g2] & _ & H).
  injection H as <- _. destruct store; eauto.
Qed.

Lemma sample_each_ok (store : bool) (k : Z) (chunks : list Mels) : forall g,
  model_wf m -> total_factor m = np_int64 k ->
  Forall (fun c => (0 <= Z.of_nat (mel_T c) * k < 2 ^ 63)%Z) chunks ->
  exists outs g',
    sample_each_spec m store chunks g = Ok (outs, g') /\
    Forall2 (fun c o => exists gi gi', sample m c store gi = Ok (o, gi'))
            chunks outs.
Proof.
  induction chunks as [|c cs IH]; intros g Hwf Htot Hall;
    cbn [sample_each_spec].
  - exists [], g. split; [reflexivity | constructor].
  - inversion Hall as [|? ? Hc Hcs]; subst.
    destruct (sample_ok m c store g k Hwf Htot Hc) as (o & g1 & E).
    rewrite E. cbn [bind].
    destruct (IH g1 Hwf Htot Hcs) as (os & g2 & E' & Hf).
    rewrite E'. cbn [bind]. exists (o :: os), g2.
    split; [reflexivity|]. constructor; [eauto | exact Hf].
Qed.

(** C4: on a constructed model with a positive segment length the segmented
    sampler splits a well-shaped feature batch into consecutive chunks
    without overlap or padding, all of [mel_segment_length] frames except
    the last (not longer, and not empty unless the input is); it runs the
    plain sampler on each chunk in turn, each from the generator state the
    chunk before left; and row by row its result is the chunk outputs one
    after the other in chunk order. *)
Theorem segmented_sampler_is_chunkwise (NN : Config -> Predictor)
    (config : Config) (mels : Mels) (store : bool) (g : Gen) (k : Z) :
  init NN config = Ok m ->
  total_factor m = np_int64 k ->
  (0 <= k)%Z ->
  (Z.of_nat (mel_T mels) * k < 2 ^ 63)%Z ->
  (0 < mel_segment_length m)%Z ->
  mels_wf mels ->
  exists chunks outs final g',
    torch_split mels (mel_segment_length m) = Ok chunks /\
    chunks <> [] /\
    cat_mels chunks = mels /\
    Forall mels_wf chunks /\
    Forall (fun c => mel_T c = Z.to_nat (mel_segment_length m)) (removelast chunks) /\
    (mel_T (last chunks mels) <= Z.to_nat (mel_segment_length m))%nat /\
    ((0 < mel_T mels)%nat -> (0 < mel_T (last chunks mels))%nat) /\
    sample_each_spec m store chunks g = Ok (outs, g') /\
    Forall2 (fun c o => exists gi gi', sample m c store gi = Ok (o, gi'))
            chunks outs /\
    sample_subregions_parallel m mels store g = Ok (final, g') /\
    (store = false ->
     exists w, final = Final w /\
       Forall (fun o => exists y, o = Final y) outs /\
       forall b, Forall (fun o => (b < length (out_final o))%nat) outs ->
         nth b w [] = concat (map (fun o => nth b (out_final o) []) outs)) /\
    (store = true ->
     exists xs, final = States xs /\
       Forall (fun o => exists ys, o = States ys) outs /\
       forall t b,
         Forall (fun o => (t < length (out_states o))%nat /\
                          (b < length (nth t (out_states o) []))%nat) outs ->
         nth b (nth t xs []) [] =
         concat (map (fun o => nth b (nth t (out_states o) []) []) outs)).
Proof.
  intros Hinit Htot Hk Hr Hseg Hmw.
  pose proof (init_model_wf _ _ _ Hinit) as Hwf.
  set (s := Z.to_nat (mel_segment_length m)).
  assert (Hs : (0 < s)%nat) by (unfold s; lia).
  destruct (torch_split_chunks mels s Hs Hmw)
    as (chunks & Hsplit & Hne & Hcat & Hcwf & Hsmall & Hfull & Hlast & Hpos).
  assert (Hsz : Z.of_nat s = mel_segment_length m) by (unfold s; lia).
  rewrite Hsz in Hsplit.
  assert (Hfit : Forall (fun c => (0 <= Z.of_nat (mel_T c) * k < 2 ^ 63)%Z) chunks).
  { eapply Forall_impl; [|exact Hsmall]. simpl. intros c Hc. nia. }
  destruct (sample_each_ok store k chunks g Hwf Htot Hfit)
    as (outs & g' & Heach & Hf2).
  assert (Hkind : Forall (fun o => if store then exists ys, o = States ys
                                   else exists y, o = Final y) outs).
  { clear - Hf2. induction Hf2 as [|c o cs os (gi & gi' & E) _ IH];
      constructor; [|exact IH].
    eapply sample_kind. exact E. }
  assert (Houts : outs <> []).
  { intros ->. inversion Hf2. subst. contradiction. }
  assert (Hrun : subregions_loop m store chunks [] g = Ok (outs, g')).
  { rewrite subregions_loop_each, Heach. reflexivity. }
  destruct outs as [|o outs]; [contradiction|].
  exists chunks, (o :: outs).
  exists (if store then States (cat_planes (out_states o) (map out_states outs))
          else Final (cat_rows (out_final o) (map out_final outs))).
  exists g'.
  repeat (split; [assumption|]).
  split.
  { unfold sample_subregions_parallel. rewrite Hsplit. cbn [bind].
    rewrite Hrun. cbn [bind]. destruct store; reflexivity. }
  split.
  - intros ->. eexists. split; [reflexivity|]. split; [exact Hkind|].
    intros b Hb. inversion Hb as [|? ? Hb0 Hbs]; subst.
    rewrite cat_rows_nth.
    + cbn [map concat]. rewrite map_map. reflexivity.
    + exact Hb0.
    + apply Forall_forall. intros w Hw.
      apply in_map_iff in Hw. destruct Hw as [o' [<- Ho']].
      rewrite Forall_forall in Hbs. apply Hbs, Ho'.
  - intros ->. eexists. split; [reflexivity|]. split; [exact Hkind|].
    intros t b Hb. inversion Hb as [|? ? [Ht0 Hb0] Hbs]; subst.
    rewrite cat_planes_nth.
    + cbn [map concat]. rewrite map_map. reflexivity.
    + exact Ht0.
    + exact Hb0.
    + apply Forall_forall. intros x Hx.
      apply in_map_iff in Hx. destruct Hx as [o' [<- Ho']].
      rewrite Forall_forall in Hbs. apply Hbs, Ho'.
Qed.

End SegmentedSampler.

(** ** The theorems at the concrete instance *)

Lemma counting_source_laws : RandomSourceLaws Demo.counting_source.
Proof.
  constructor; simpl.
  - intros n size g. apply repeat_length.
  - intros n size g Hn. apply Forall_forall. intros k Hk.
    apply repeat_spec in Hk. lia.
  - intros size g. apply repeat_length.
  - intros size g. apply Forall_forall. intros u Hu.
    apply repeat_spec in Hu. lra.
  - intros b l g. split; [apply repeat_length|].
    apply Forall_forall. intros row Hrow.
    apply repeat_spec in Hrow. subst. apply repeat_length.
Qed.

Lemma demo_valid_schedule :
  valid_schedule (cfg_n_iter Demo.config) (cfg_betas_range Demo.config).
Proof. unfold valid_schedule. simpl. split; [lia | lra]. Qed.

Lemma demo_mels_wf : mels_wf Demo.mels.
Proof. unfold mels_wf. simpl. repeat constructor. Qed.


Lemma sample_stores_every_state_witness :
  init Demo.echo Demo.config = Ok Demo.model /\
  total_factor Demo.model = np_int64 2 /\
  (0 <= Z.of_nat (mel_T Demo.mels) * 2 < 2 ^ 63)%Z /\
  exists ys g',
    sample (RS := Demo.counting_source) Demo.model Demo.mels true 0%nat
      = Ok (States (repeat (repeat 1 6) 1 :: ys), g') /\
    length (repeat (repeat 1 6) 1 :: ys) = 3%nat /\
    sample (RS := Demo.counting_source) Demo.model Demo.mels false 0%nat
      = Ok (Final (last (repeat (repeat 1 6) 1 :: ys) []), g').
Proof.
  assert (Hi : init Demo.echo Demo.config = Ok Demo.model) by reflexivity.
  assert (Ht : total_factor Demo.model = np_int64 2) by reflexivity.
  assert (Hr : (0 <= Z.of_nat (mel_T Demo.mels) * 2 < 2 ^ 63)%Z) by (simpl; lia).
  split; [exact Hi|]. split; [exact Ht|]. split; [exact Hr|].
  destruct (sample_stores_every_state (RS := Demo.counting_source)
              counting_source_laws Demo.model Demo.echo Demo.config Demo.mels
              0%nat 2 Hi Ht Hr)
    as (ys & g' & Hrun & _ & _ & Hlen & Hfinal).
  exists ys, g'. split; [exact Hrun|]. split; [exact Hlen | exact Hfinal].
Defined.

Lemma segmented_sampler_is_chunkwise_witness :
  init Demo.echo Demo.config = Ok Demo.model /\
  total_factor Demo.model = np_int64 2 /\
  (0 <= 2)%Z /\
  (Z.of_nat (mel_T Demo.mels) * 2 < 2 ^ 63)%Z /\
  (0 < mel_segment_length Demo.model)%Z /\
  mels_wf Demo.mels /\
  exists chunks outs final g',
    torch_split Demo.mels (mel_segment_length Demo.model) = Ok chunks /\
    cat_mels chunks = Demo.mels /\
    sample_each_spec (RS := Demo.counting_source) Demo.model false chunks 0%nat
      = Ok (outs, g') /\
    sample_subregions_parallel (RS := Demo.counting_source) Demo.model Demo.mels
      false 0%nat = Ok (final, g').
Proof.
  assert (Hi : init Demo.echo Demo.config = Ok Demo.model) by reflexivity.
  assert (Ht : total_factor Demo.model = np_int64 2) by reflexivity.
  assert (Hk : (0 <= 2)%Z) by lia.
  assert (Hr : (Z.of_nat (mel_T Demo.mels) * 2 < 2 ^ 63)%Z) by (simpl; lia).
  assert (Hs : (0 < mel_segment_length Demo.model)%Z) by reflexivity.
  split; [exact Hi|]. split; [exact Ht|]. split; [exact Hk|].
  split; [exact Hr|]. split; [exact Hs|]. split; [exact demo_mels_wf|].
  destruct (segmented_sampler_is_chunkwise (RS := Demo.counting_source)
              Demo.model Demo.echo Demo.config Demo.mels false 0%nat 2
              Hi Ht Hk Hr Hs demo_mels_wf)
    as (chunks & outs & final & g' & Hsplit & _ & Hcat & _ & _ & _ & _
        & Heach & _ & Hrun & _).
  exists chunks, outs, final, g'.
  split; [exact Hsplit|]. split; [exact Hcat|]. split; [exact Heach | exact Hrun].
Defined.

(** * More of the code *)

(** ** Which steps the reverse step accepts *)

Lemma py_index_ok_iff (x : Vec) (t : Z) :
  is_ok (py_index x t) <->
  (- Z.of_nat (length x) <= t < Z.of_nat (length x))%Z.
Proof.
  unfold py_index, is_ok.
  destruct ((0 <=? t)%Z && (t <? Z.of_nat (length x))%Z) eqn:E1.
  - apply andb_true_iff in E1. destruct E1 as [H0 H1].
    apply Z.leb_le in H0. apply Z.ltb_lt in H1. split; [lia | eauto].
  - destruct ((- Z.of_nat (length x) <=? t)%Z && (t <? 0)%Z) eqn:E2.
    + apply andb_true_iff in E2. destruct E2 as [H0 H1].
      apply Z.leb_le in H0. apply Z.ltb_lt in H1. split; [lia | eauto].
    + split; [intros [a H]; discriminate|]. intros Hr. exfalso.
      apply andb_false_iff in E1. apply andb_false_iff in E2.
      destruct E1 as [E1|E1], E2 as [E2|E2];
        try apply Z.leb_gt in E1; try apply Z.ltb_ge in E1;
        try apply Z.leb_gt in E2; try apply Z.ltb_ge in E2; lia.
Qed.

Lemma py_index_raises (x : Vec) (t : Z) :
  ~ (- Z.of_nat (length x) <= t < Z.of_nat (length x))%Z ->
  py_index x t = Raise IndexError.
Proof.
  intros Hr. pose proof (py_index_ok_iff x t) as Hiff.
  unfold py_index in *.
  destruct ((0 <=? t)%Z && (t <? Z.of_nat (length x))%Z);
    [exfalso; apply Hr, Hiff; unfold is_ok; eauto|].
  destruct ((- Z.of_nat (length x) <=? t)%Z && (t <? 0)%Z);
    [exfalso; apply Hr, Hiff; unfold is_ok; eauto|].
  reflexivity.
Qed.

Lemma py_index_ok (x : Vec) (t : Z) :
  (- Z.of_nat (length x) <= t < Z.of_nat (length x))%Z ->
  exists v, py_index x t = Ok v.
Proof. intros Hr. apply py_index_ok_iff. exact Hr. Qed.

Section StepRange.

Context {RS : RandomSource}.

(** X1. On a constructed model the reverse step returns for the steps
    [-n_iter <= t < n_iter], a negative step reading the buffers from their
    end as Python indexing does, and raises [IndexError] for every other
    step: no draw is made before the index is checked. *)
Theorem reverse_step_index_range (NN : Config -> Predictor) (config : Config)
    (m : WaveGrad) (mels : Mels) (y : Wave) (t : Z) (clip : bool) (g : Gen) :
  init NN config = Ok m ->
  ((- n_iter m <= t < n_iter m)%Z ->
   exists out g', compute_inverse_dynamics m mels y t clip g = Ok (out, g')) /\
  (~ (- n_iter m <= t < n_iter m)%Z ->
   compute_inverse_dynamics m mels y t clip g = Raise IndexError).
Proof.
  intros Hinit.
  destruct (init_model_wf _ _ _ Hinit)
    as (Hn & Htab & Hrec & Hrecm1 & Hc1 & Hc2 & Hlv).
  unfold compute_inverse_dynamics, p_mean_variance, predict_start_from_noise,
    q_posterior.
  split.
  - intros Ht.
    destruct (py_index_ok (sqrt_alphas_cumprod_prev m) t) as [v0 ->];
      [rewrite Htab; lia|].
    destruct (py_index_ok (sqrt_recip_alphas_cumprod m) t) as [v1 ->];
      [rewrite Hrec; lia|].
    destruct (py_index_ok (sqrt_recipm1_alphas_cumprod m) t) as [v2 ->];
      [rewrite Hrecm1; lia|].
    destruct (py_index_ok (posterior_mean_coef1 m) t) as [v3 ->];
      [rewrite Hc1; lia|].
    destruct (py_index_ok (posterior_mean_coef2 m) t) as [v4 ->];
      [rewrite Hc2; lia|].
    destruct (py_index_ok (posterior_log_variance_clipped m) t) as [v5 ->];
      [rewrite Hlv; lia|].
    cbn [bind]. destruct (if (0 <? t)%Z then _ else _) as [eps g']. eauto.
  - intros Ht.
    destruct (py_index (sqrt_alphas_cumprod_prev m) t) as [v0|e] eqn:E0.
    + cbn [bind].
      rewrite (py_index_raises (sqrt_recip_alphas_cumprod m) t)
        by (rewrite Hrec; lia).
      reflexivity.
    + rewrite py_index_raises in E0.
      * injection E0 as <-. reflexivity.
      * intros Hr. rewrite Htab in Hr.
        destruct (py_index_ok (sqrt_alphas_cumprod_prev m) t) as [v Hv];
          [rewrite Htab; exact Hr|].
        rewrite Hv in E0. discriminate.
Qed.

End StepRange.

Lemma reverse_step_index_range_witness :
  init Demo.echo Demo.config = Ok Demo.model /\
  (exists out g',
     compute_inverse_dynamics (RS := Demo.counting_source) Demo.model Demo.mels
       [[1; 1]] (-2) true 0%nat = Ok (out, g')) /\
  compute_inverse_dynamics (RS := Demo.counting_source) Demo.model Demo.mels
    [[1; 1]] 2 true 0%nat = Raise IndexError.
Proof.
  assert (Hi : init Demo.echo Demo.config = Ok Demo.model) by reflexivity.
  split; [exact Hi|]. split.
  - apply (proj1 (reverse_step_index_range (RS := Demo.counting_source)
                    Demo.echo Demo.config Demo.model Demo.mels [[1; 1]] (-2)
                    true 0%nat Hi)).
    simpl. lia.
  - apply (proj2 (reverse_step_index_range (RS := Demo.counting_source)
                    Demo.echo Demo.config Demo.model Demo.mels [[1; 1]] 2
                    true 0%nat Hi)).
    simpl. lia.
Defined.

(** ** The posterior coefficients *)






(** ** The range of the generated waveform *)






Section OutputRange.

Context {RS : RandomSource}.
Variable NN : Config -> Predictor.
Variable config : Config.
Variable m : WaveGrad.
Hypothesis valid : valid_schedule (cfg_n_iter config) (cfg_betas_range config).
Hypothesis constructed : init NN config = Ok m.





End OutputRange.


(** ** Shapes *)

Lemma last_in {A : Type} (l : list A) (d : A) : l <> [] -> In (last l d) l.
Proof.
  induction l as [|a [|b l] IH]; intros Hne; [contradiction | left; reflexivity|].
  right. apply IH. discriminate.
Qed.

Lemma wave_shape_map (f : R -> R) (b l : nat) (w : Wave) :
  wave_shape b l w -> wave_shape b l (map (map f) w).
Proof.
  intros [Hb Hl]. split; [rewrite length_map; exact Hb|].
  apply Forall_forall. intros row Hrow.
  apply in_map_iff in Hrow. destruct Hrow as [r [<- Hr]].
  rewrite length_map. rewrite Forall_forall in Hl. apply Hl, Hr.
Qed.

Lemma wave_shape_map2 (f : R -> R -> R) (b l : nat) (x y : Wave) :
  wave_shape b l x -> wave_shape b l y ->
  wave_shape b l (map2 (map2 f) x y).
Proof.
  intros [Hbx Hlx] [Hby Hly]. split; [rewrite map2_length; lia|].
  eapply map2_Forall; [|exact Hlx|exact Hly].
  intros r1 r2 H1 H2. cbv beta in *. rewrite map2_length. lia.
Qed.


Lemma wave_shape_zeros_like (b l : nat) (y : Wave) :
  wave_shape b l y -> wave_shape b l (zeros_like y).
Proof. apply wave_shape_map. Qed.


Section Shapes.

Context {RS : RandomSource}.
Hypothesis laws : RandomSourceLaws RS.
Variable m : WaveGrad.
Hypothesis predictor_contract : keeps_shape (nn m).

Lemma randn_like_shape (b l : nat) (y : Wave) (g : Gen) :
  wave_shape b l y -> wave_shape b l (fst (randn_like y g)).
Proof.
  intros [Hb Hl]. unfold randn_like.
  pose proof (randn_shape RS laws (length y) (length (hd [] y)) g) as [Hb' Hl'].
  destruct y as [|r y].
  - simpl in *. subst b. split; [exact Hb'|].
    destruct (fst (randn 0 0 g)); [constructor | discriminate].
  - inversion Hl as [|? ? Hr _]; subst. cbn [hd] in *.
    split; [rewrite Hb'; reflexivity | exact Hl'].
Qed.

Lemma p_mean_variance_shape (mels : Mels) (y : Wave) (t : Z) (clip : bool)
    (b l : nat) (mean : Wave) (lv : R) :
  wave_shape b l y ->
  p_mean_variance m mels y t clip = Ok (mean, lv) ->
  wave_shape b l mean.
Proof.
  intros Hy. unfold p_mean_variance, predict_start_from_noise, q_posterior.
  intros H.
  apply bind_ok in H. destruct H as (lvl & _ & H).
  apply bind_ok in H. destruct H as (y_recon & Hrecon & H).
  apply bind_ok in Hrecon. destruct Hrecon as (a & _ & Hrecon).
  apply bind_ok in Hrecon. destruct Hrecon as (c & _ & Hrecon).
  injection Hrecon as <-.
  apply bind_ok in H. destruct H as (c1 & _ & H).
  apply bind_ok in H. destruct H as (c2 & _ & H).
  apply bind_ok in H. destruct H as (lv' & _ & H).
  injection H as <- _.
  assert (Hrec : wave_shape b l
            (wsub (wscale a y)
               (wscale c (nn m mels y (repeat lvl (length (mel_data mels))))))).
  { apply wave_shape_map2; apply wave_shape_map;
      [exact Hy | apply predictor_contract, Hy]. }
  apply wave_shape_map2; apply wave_shape_map; [|exact Hy].
  destruct clip; [apply wave_shape_map|]; exact Hrec.
Qed.

(** The reverse step keeps the shape of the state when the predictor keeps
    it. *)
Lemma compute_inverse_dynamics_shape (mels : Mels) (y : Wave) (t : Z)
    (clip : bool) (g g' : Gen) (b l : nat) (out : Wave) :
  wave_shape b l y ->
  compute_inverse_dynamics m mels y t clip g = Ok (out, g') ->
  wave_shape b l out.
Proof.
  intros Hy. unfold compute_inverse_dynamics. intros H.
  apply bind_ok in H. destruct H as ([mean lv] & Hmean & H).
  pose proof (p_mean_variance_shape mels y t clip b l mean lv Hy Hmean) as Hm.
  pose proof (randn_like_shape b l y g Hy) as Hrand.
  destruct (0 <? t)%Z.
  - destruct (randn_like y g) as [eps g1]. injection H as <- _.
    apply wave_shape_map2; [exact Hm | apply wave_shape_map; exact Hrand].
  - injection H as <- _.
    apply wave_shape_map2;
      [exact Hm | apply wave_shape_map, wave_shape_zeros_like; exact Hy].
Qed.

Lemma reverse_steps_shape (mels : Mels) (b l : nat) (k : nat) :
  forall y g ys g',
    wave_shape b l y ->
    reverse_steps_spec m mels k y g = Ok (ys, g') ->
    Forall (wave_shape b l) ys.
Proof.
  induction k as [|k IH]; intros y g ys g' Hy H; cbn [reverse_steps_spec] in H.
  - injection H as <- _. constructor.
  - apply bind_ok in H. destruct H as ([y' g1] & Hstep & H).
    apply bind_ok in H. destruct H as ([rest g2] & Hrest & H).
    injection H as <- _.
    pose proof (compute_inverse_dynamics_shape mels y _ true g g1 b l y' Hy Hstep)
      as Hy'.
    constructor; [exact Hy' | exact (IH y' g1 rest g2 Hy' Hrest)].
Qed.

(** Every state that [sample] produces has [batch_size] rows of [T * k]
    samples, the final waveform among them. *)
Lemma sample_states_shape (mels : Mels) (store : bool) (g g' : Gen)
    (k : Z) (o : SampleOut) :
  (0 <= n_iter m)%Z ->
  total_factor m = np_int64 k ->
  (0 <= Z.of_nat (mel_T mels) * k < 2 ^ 63)%Z ->
  sample m mels store g = Ok (o, g') ->
  let shape := wave_shape (length (mel_data mels)) (Z.to_nat (Z.of_nat (mel_T mels) * k)) in
  if store then exists ys, o = States ys /\ Forall shape ys
  else exists w, o = Final w /\ shape w.
Proof.
  intros Hn Htot Hr H shape.
  rewrite (sample_chain m mels store g k Hn Htot Hr) in H. cbv zeta in H.
  pose proof (randn_shape RS laws (length (mel_data mels))
                (Z.to_nat (Z.of_nat (mel_T mels) * k)) g) as Hnoise.
  fold shape in Hnoise.
  destruct (randn (length (mel_data mels))
              (Z.to_nat (Z.of_nat (mel_T mels) * k)) g) as [y g1].
  cbn [fst snd] in *.
  apply bind_ok in H. destruct H as ([rest g2] & Hrest & H).
  pose proof (reverse_steps_shape mels _ _ _ y g1 rest g2 Hnoise Hrest) as Hall.
  fold shape in Hall.
  destruct store; injection H as <- _; eexists; (split; [reflexivity|]).
  - constructor; assumption.
  - assert (Hys : Forall shape (y :: rest)) by (constructor; assumption).
    rewrite Forall_forall in Hys. apply Hys.
    destruct rest as [|r rest]; [left; reflexivity|].
    right. apply last_in. discriminate.
Qed.

End Shapes.

Section FinalStep.

Context {RS : RandomSource}.


End FinalStep.

Lemma echo_keeps_shape : keeps_shape (nn Demo.model).
Proof. intros mels y noise_level b l Hy. exact Hy. Qed.


Section SampleShape.

Context {RS : RandomSource}.
Hypothesis laws : RandomSourceLaws RS.

(** X5. With a predictor that keeps shapes, [sample] returns a waveform of
    [batch_size] rows of [T * k] samples, [T] the number of feature frames
    and [k] the total upsampling factor. *)
Theorem sample_output_shape (NN : Config -> Predictor) (config : Config)
    (m : WaveGrad) (mels : Mels) (g : Gen) (k : Z) :
  init NN config = Ok m ->
  keeps_shape (nn m) ->
  total_factor m = np_int64 k ->
  (0 <= Z.of_nat (mel_T mels) * k < 2 ^ 63)%Z ->
  exists w g',
    sample m mels false g = Ok (Final w, g') /\
    wave_shape (length (mel_data mels)) (mel_T mels * Z.to_nat k) w.
Proof.
  intros Hinit Hnn Htot Hr.
  pose proof (init_model_wf _ _ _ Hinit) as Hwf.
  destruct (sample_ok m mels false g k Hwf Htot Hr) as (o & g' & E).
  pose proof (sample_states_shape laws m Hnn mels false g g' k o (proj1 Hwf)
                Htot Hr E) as Hs.
  cbv zeta in Hs. destruct Hs as (w & -> & Hw).
  exists w, g'. split; [exact E|].
  replace (mel_T mels * Z.to_nat k)%nat
    with (Z.to_nat (Z.of_nat (mel_T mels) * k)); [exact Hw|].
  destruct (Z_lt_dec k 0) as [Hk|Hk].
  - assert (mel_T mels = 0%nat) by nia. nia.
  - rewrite Z2Nat.inj_mul, Nat2Z.id by lia. reflexivity.
Qed.

End SampleShape.

Lemma sample_output_shape_witness :
  init Demo.echo Demo.config = Ok Demo.model /\
  keeps_shape (nn Demo.model) /\
  total_factor Demo.model = np_int64 2 /\
  (0 <= Z.of_nat (mel_T Demo.mels) * 2 < 2 ^ 63)%Z /\
  exists w g',
    sample (RS := Demo.counting_source) Demo.model Demo.mels false 0%nat
      = Ok (Final w, g') /\
    wave_shape 1 6 w.
Proof.
  assert (Hi : init Demo.echo Demo.config = Ok Demo.model) by reflexivity.
  assert (Ht : total_factor Demo.model = np_int64 2) by reflexivity.
  assert (Hr : (0 <= Z.of_nat (mel_T Demo.mels) * 2 < 2 ^ 63)%Z) by (simpl; lia).
  split; [exact Hi|]. split; [exact echo_keeps_shape|].
  split; [exact Ht|]. split; [exact Hr|].
  exact (sample_output_shape (RS := Demo.counting_source) counting_source_laws
           Demo.echo Demo.config Demo.model Demo.mels 0%nat 2
           Hi echo_keeps_shape Ht Hr).
Defined.

(** ** More on the segmented sampler *)


Lemma cat_rows_shape (b : nat) (ws : list Wave) : forall (ls : list nat) w l,
  wave_shape b l w ->
  Forall2 (fun w' l' => wave_shape b l' w') ws ls ->
  wave_shape b (l + list_sum ls) (cat_rows w ws).
Proof.
  induction ws as [|w' ws IH]; intros ls w l Hw Hws; cbn [cat_rows].
  - inversion Hws; subst. simpl. rewrite Nat.add_0_r. exact Hw.
  - inversion Hws as [|? l' ? ls' Hw' Hrest]; subst.
    replace (l + list_sum (l' :: ls'))%nat with ((l + l') + list_sum ls')%nat
      by (simpl; lia).
    apply IH; [|exact Hrest].
    destruct Hw as [Hb Hl], Hw' as [Hb' Hl'].
    split; [rewrite map2_length; lia|].
    eapply map2_Forall; [|exact Hl|exact Hl'].
    intros r1 r2 H1 H2. cbv beta in *. rewrite length_app. lia.
Qed.

Lemma cat_mels_frames (cs : list Mels) : forall c,
  mel_T (fold_left beside cs c) = (mel_T c + list_sum (map mel_T cs))%nat.
Proof.
  induction cs as [|c' cs IH]; intros c; simpl; [lia|].
  rewrite IH. cbn [beside mel_T]. lia.
Qed.

Section SegmentedRun.

Context {RS : RandomSource}.
Variable m : WaveGrad.

(** What a run of the segmented sampler that returns the final waveform is
    made of: the chunks, with the batch size of the input and its frames
    between them, and the waveform each chunk's run of [sample] returned. *)
Lemma segmented_run (mels : Mels) (g : Gen) (k : Z) :
  model_wf m ->
  total_factor m = np_int64 k ->
  (0 <= k)%Z ->
  (Z.of_nat (mel_T mels) * k < 2 ^ 63)%Z ->
  (0 < mel_segment_length m)%Z ->
  mels_wf mels ->
  exists c cs w ws g',
    torch_split mels (mel_segment_length m) = Ok (c :: cs) /\
    Forall (fun c' => length (mel_data c') = length (mel_data mels)) (c :: cs) /\
    list_sum (map mel_T (c :: cs)) = mel_T mels /\
    Forall2 (fun c' w' => exists gi gi', sample m c' false gi = Ok (Final w', gi'))
            (c :: cs) (w :: ws) /\
    sample_subregions_parallel m mels false g = Ok (Final (cat_rows w ws), g').
Proof.
  intros Hwf Htot Hk Hr Hseg Hmw.
  set (s := Z.to_nat (mel_segment_length m)).
  assert (Hs : (0 < s)%nat) by (unfold s; lia).
  assert (Hsz : Z.of_nat s = mel_segment_length m) by (unfold s; lia).
  destruct (torch_split_chunks mels s Hs Hmw)
    as (chunks & Hsplit & Hne & Hcat & _ & Hsmall & _).
  assert (Hbatch : Forall (fun c' => length (mel_data c') = length (mel_data mels))
                          chunks).
  { rewrite torch_split_pieces in Hsplit by exact Hs. injection Hsplit as <-.
    apply Forall_forall. intros c' Hc'.
    apply in_map_iff in Hc'. destruct Hc' as [p [<- _]].
    unfold narrow. cbn [mel_data]. apply length_map. }
  rewrite Hsz in Hsplit.
  assert (Hfit : Forall (fun c' => (0 <= Z.of_nat (mel_T c') * k < 2 ^ 63)%Z) chunks).
  { eapply Forall_impl; [|exact Hsmall]. simpl. intros c' Hc'. nia. }
  destruct (sample_each_ok m false k chunks g Hwf Htot Hfit)
    as (outs & g' & Heach & Hf2).
  assert (Hrun : subregions_loop m false chunks [] g = Ok (outs, g')).
  { rewrite subregions_loop_each, Heach. reflexivity. }
  assert (Hfinal : exists ws,
            outs = map Final ws /\
            Forall2 (fun c' w' => exists gi gi', sample m c' false gi = Ok (Final w', gi'))
                    chunks ws).
  { clear - Hf2. induction Hf2 as [|c' o cs' os (gi & gi' & E) _ IH].
    - exists []. split; [reflexivity | constructor].
    - destruct IH as (ws & -> & Hws).
      destruct (sample_kind m c' false gi gi' o E) as [w' ->].
      exists (w' :: ws). split; [reflexivity|]. constructor; eauto. }
  destruct Hfinal as (ws & -> & Hws).
  destruct chunks as [|c cs]; [contradiction|].
  destruct ws as [|w ws]; [inversion Hws|].
  exists c, cs, w, ws, g'.
  split; [exact Hsplit|]. split; [exact Hbatch|].
  split.
  { rewrite <- Hcat. cbn [cat_mels map]. rewrite cat_mels_frames.
    reflexivity. }
  split; [exact Hws|].
  unfold sample_subregions_parallel. rewrite Hsplit. cbn [bind].
  rewrite Hrun. cbn [bind cat_last2 map out_final].
  rewrite map_map. cbn [out_final]. rewrite map_id. reflexivity.
Qed.

End SegmentedRun.

Section SegmentedOutput.

Context {RS : RandomSource}.
Hypothesis laws : RandomSourceLaws RS.
Variable NN : Config -> Predictor.
Variable config : Config.
Variable m : WaveGrad.
Hypothesis constructed : init NN config = Ok m.


(** X7. With a predictor that keeps shapes, the segmented sampler returns a
    waveform of the shape the plain sampler gives for the whole input:
    [batch_size] rows of [T * k] samples. *)
Theorem segmented_output_shape (mels : Mels) (g : Gen) (k : Z) :
  keeps_shape (nn m) ->
  total_factor m = np_int64 k ->
  (0 <= k)%Z ->
  (Z.of_nat (mel_T mels) * k < 2 ^ 63)%Z ->
  (0 < mel_segment_length m)%Z ->
  mels_wf mels ->
  exists w g',
    sample_subregions_parallel m mels false g = Ok (Final w, g') /\
    wave_shape (length (mel_data mels)) (mel_T mels * Z.to_nat k) w.
Proof.
  intros Hnn Htot Hk Hr Hseg Hmw.
  pose proof (init_model_wf _ _ _ constructed) as Hwf.
  destruct (segmented_run m mels g k Hwf Htot Hk Hr Hseg Hmw)
    as (c & cs & w & ws & g' & _ & Hbatch & Hsum & Hws & Hrun).
  exists (cat_rows w ws), g'. split; [exact Hrun|].
  assert (Hshapes : Forall2 (fun w' l' => wave_shape (length (mel_data mels)) l' w')
                      (w :: ws) (map (fun c' => (mel_T c' * Z.to_nat k)%nat) (c :: cs))).
  { assert (Hsmall : Forall (fun c' => (mel_T c' <= mel_T mels)%nat) (c :: cs)).
    { apply Forall_forall. intros c' Hc'. rewrite <- Hsum.
      clear - Hc'. induction (c :: cs) as [|a l IH]; [contradiction|].
      destruct Hc' as [->|Hin]; simpl; [lia|]. specialize (IH Hin). lia. }
    clear - Hws Hbatch Hsmall Hnn Htot Hk Hr Hwf laws.
    remember (c :: cs) as chunks eqn:Ec. remember (w :: ws) as outs eqn:Eo.
    clear Ec Eo.
    induction Hws as [|c' w' cs' ws' (gi & gi' & E) _ IH]; cbn [map];
      constructor.
    - inversion Hbatch as [|? ? Hb _]; inversion Hsmall as [|? ? Hc _]; subst.
      assert (Hrc : (0 <= Z.of_nat (mel_T c') * k < 2 ^ 63)%Z) by nia.
      pose proof (sample_states_shape laws m Hnn c' false gi gi' k (Final w')
                    (proj1 Hwf) Htot Hrc E) as Hs.
      cbv zeta in Hs. destruct Hs as (w0 & Hw0 & Hshape).
      injection Hw0 as <-. rewrite Hb in Hshape.
      rewrite Z2Nat.inj_mul, Nat2Z.id in Hshape by lia. exact Hshape.
    - inversion Hbatch; inversion Hsmall; subst. apply IH; assumption. }
  inversion Hshapes as [|? l0 ? ls0 Hw0 Hrest]; subst.
  replace (mel_T mels * Z.to_nat k)%nat
    with (mel_T c * Z.to_nat k + list_sum (map (fun c' => (mel_T c' * Z.to_nat k)%nat) cs))%nat.
  - apply cat_rows_shape; assumption.
  - rewrite <- Hsum. cbn [map list_sum fold_right].
    clear. induction cs as [|a cs IH]; simpl in *; nia.
Qed.

End SegmentedOutput.


Lemma segmented_output_shape_witness :
  init Demo.echo Demo.config = Ok Demo.model /\
  keeps_shape (nn Demo.model) /\
  total_factor Demo.model = np_int64 2 /\
  (0 <= 2)%Z /\
  (Z.of_nat (mel_T Demo.mels) * 2 < 2 ^ 63)%Z /\
  (0 < mel_segment_length Demo.model)%Z /\
  mels_wf Demo.mels /\
  exists w g',
    sample_subregions_parallel (RS := Demo.counting_source) Demo.model Demo.mels
      false 0%nat = Ok (Final w, g') /\
    wave_shape 1 6 w.
Proof.
  assert (Hi : init Demo.echo Demo.config = Ok Demo.model) by reflexivity.
  assert (Ht : total_factor Demo.model = np_int64 2) by reflexivity.
  assert (Hk : (0 <= 2)%Z) by lia.
  assert (Hr : (Z.of_nat (mel_T Demo.mels) * 2 < 2 ^ 63)%Z) by (simpl; lia).
  assert (Hs : (0 < mel_segment_length Demo.model)%Z) by reflexivity.
  split; [exact Hi|]. split; [exact echo_keeps_shape|]. split; [exact Ht|].
  split; [exact Hk|]. split; [exact Hr|]. split; [exact Hs|].
  split; [exact demo_mels_wf|].
  exact (segmented_output_shape (RS := Demo.counting_source) counting_source_laws
           Demo.echo Demo.config Demo.model Hi Demo.mels 0%nat 2
           echo_keeps_shape Ht Hk Hr Hs demo_mels_wf).
Defined.

Section ShortInput.

Context {RS : RandomSource}.
Variable m : WaveGrad.

(** X8. On an input of at most one segment the segmented sampler is the plain
    sampler: the same result from the same generator state, an exception
    included. *)
Theorem segmented_is_plain_on_one_segment (mels : Mels) (store : bool) (g : Gen) :
  (0 < mel_segment_length m)%Z ->
  (Z.of_nat (mel_T mels) <= mel_segment_length m)%Z ->
  mels_wf mels ->
  sample_subregions_parallel m mels store g = sample m mels store g.
Proof.
  intros Hseg Hshort Hmw.
  set (s := Z.to_nat (mel_segment_length m)).
  assert (Hs : (0 < s)%nat) by (unfold s; lia).
  assert (Hsz : Z.of_nat s = mel_segment_length m) by (unfold s; lia).
  assert (HT : (mel_T mels <= s)%nat) by (unfold s; lia).
  assert (Hnum : split_num mels s = 1%nat).
  { unfold split_num.
    assert ((mel_T mels + s - 1) / s < 2)%nat
      by (apply Nat.Div0.div_lt_upper_bound; lia).
    lia. }
  assert (Hsplit : torch_split mels (mel_segment_length m) = Ok [mels]).
  { rewrite <- Hsz, torch_split_pieces by exact Hs. rewrite Hnum.
    cbn [seq map]. unfold split_piece. rewrite Hnum. cbn [Nat.sub Nat.ltb Nat.leb fst snd].
    unfold split_last. rewrite Hnum.
    replace (s - (s * 1 - mel_T mels))%nat with (mel_T mels) by lia.
    rewrite Nat.mul_0_l, narrow_all by exact Hmw. reflexivity. }
  unfold sample_subregions_parallel. rewrite Hsplit.
  cbn [bind subregions_loop].
  destruct (sample m mels store g) as [[o g']|e] eqn:E; cbn [bind app];
    [|reflexivity].
  pose proof (sample_kind m mels store g g' o E) as Hkind.
  destruct store.
  - destruct Hkind as [ys ->]. reflexivity.
  - destruct Hkind as [w ->]. reflexivity.
Qed.

(** X9. A training segment shorter than one hop gives the segment length 0, and
    then the segmented sampler raises on every input that has frames:
    [torch.split] refuses the chunk size. *)
Theorem segmented_rejects_short_training_segment (NN : Config -> Predictor)
    (config : Config) (mels : Mels) (store : bool) (g : Gen) :
  init NN config = Ok m ->
  (0 <= cfg_segment_length config < cfg_hop_length config)%Z ->
  (0 < mel_T mels)%nat ->
  mel_segment_length m = 0%Z /\
  sample_subregions_parallel m mels store g = Raise RuntimeError.
Proof.
  intros Hinit Hcfg HT.
  destruct (init_inv _ _ _ Hinit) as (_ & _ & _ & _ & _ & Hseg & _).
  assert (H0 : mel_segment_length m = 0%Z).
  { rewrite Hseg. apply Z.div_small. exact Hcfg. }
  split; [exact H0|].
  unfold sample_subregions_parallel, torch_split. rewrite H0.
  cbn [Z.ltb Z.compare Z.eqb andb].
  destruct (mel_T mels =? 0)%nat eqn:E; [apply Nat.eqb_eq in E; lia|].
  reflexivity.
Qed.

End ShortInput.

Lemma segmented_is_plain_on_one_segment_witness :
  (0 < mel_segment_length Demo.model)%Z /\
  (Z.of_nat (mel_T Demo.one_segment) <= mel_segment_length Demo.model)%Z /\
  mels_wf Demo.one_segment /\
  sample_subregions_parallel (RS := Demo.counting_source) Demo.model
    Demo.one_segment true 0%nat =
  sample (RS := Demo.counting_source) Demo.model Demo.one_segment true 0%nat.
Proof.
  assert (Hs : (0 < mel_segment_length Demo.model)%Z) by reflexivity.
  assert (Hr : (Z.of_nat (mel_T Demo.one_segment)
                <= mel_segment_length Demo.model)%Z)
    by (intros H; discriminate H).
  assert (Hw : mels_wf Demo.one_segment)
    by (unfold mels_wf; simpl; repeat constructor).
  split; [exact Hs|]. split; [exact Hr|]. split; [exact Hw|].
  exact (segmented_is_plain_on_one_segment (RS := Demo.counting_source)
           Demo.model Demo.one_segment true 0%nat Hs Hr Hw).
Defined.

Lemma segmented_rejects_short_training_segment_witness :
  init Demo.echo Demo.config_short_segment = Ok Demo.model_short_segment /\
  (0 <= cfg_segment_length Demo.config_short_segment
   < cfg_hop_length Demo.config_short_segment)%Z /\
  (0 < mel_T Demo.mels)%nat /\
  sample_subregions_parallel (RS := Demo.counting_source)
    Demo.model_short_segment
    Demo.mels false 0%nat = Raise RuntimeError.
Proof.
  assert (Hi : init Demo.echo Demo.config_short_segment
               = Ok Demo.model_short_segment) by reflexivity.
  assert (Hc : (0 <= cfg_segment_length Demo.config_short_segment
                < cfg_hop_length Demo.config_short_segment)%Z) by (simpl; lia).
  assert (HT : (0 < mel_T Demo.mels)%nat) by (simpl; lia).
  split; [exact Hi|]. split; [exact Hc|]. split; [exact HT|].
  exact (proj2 (segmented_rejects_short_training_segment
                  (RS := Demo.counting_source) _ Demo.echo
                  Demo.config_short_segment Demo.mels false 0%nat
                  Hi Hc HT)).
Defined.

(** ** The noise levels and the training loss *)

Section NoiseLevels.

Context {RS : RandomSource}.
Hypothesis laws : RandomSourceLaws RS.
Variable m : WaveGrad.

(** How the sampler makes its values on a model with at least one step. *)
Lemma noise_levels_generated (batch_size : nat) (g : Gen) :
  model_wf m -> (0 < n_iter m)%Z ->
  let at_ := fun k : Z => nth (Z.to_nat k) (sqrt_alphas_cumprod_prev m) 0 in
  exists s u g',
    sample_continious_noise_level m batch_size g =
      Ok (map2 (fun k x => at_ (k - 1)%Z + (at_ k - at_ (k - 1)%Z) * x) s u, g') /\
    length s = batch_size /\ length u = batch_size /\
    Forall (fun k => (1 <= k <= n_iter m)%Z) s /\
    Forall (fun x => 0 <= x < 1) u.
Proof.
  intros (_ & Htab & _) Hn at_.
  assert (Hidx : forall k, (0 <= k <= n_iter m)%Z ->
            (0 <= k < Z.of_nat (length (sqrt_alphas_cumprod_prev m)))%Z)
    by (intros k Hk; rewrite Htab; lia).
  unfold sample_continious_noise_level, np_random_choice_range.
  replace (Z.max 0 (n_iter m + 1 - 1)) with (n_iter m) by lia.
  destruct (n_iter m =? 0)%Z eqn:E0; [apply Z.eqb_eq in E0; lia|].
  cbn [andb].
  pose proof (rand_ints_length RS laws (n_iter m) batch_size g) as Hil.
  pose proof (rand_ints_range RS laws (n_iter m) batch_size g Hn) as Hir.
  destruct (rand_ints (n_iter m) batch_size g) as [idx g1].
  cbn [fst snd bind] in *.
  set (s := map (fun i => (1 + i)%Z) idx).
  assert (Hs : Forall (fun k => (1 <= k <= n_iter m)%Z) s).
  { unfold s. apply Forall_forall. intros k Hk.
    apply in_map_iff in Hk. destruct Hk as [i [<- Hi]].
    rewrite Forall_forall in Hir. specialize (Hir i Hi). lia. }
  rewrite (py_index_many_in_range _ (map (fun k => (k - 1)%Z) s)).
  2:{ apply Forall_forall. intros t Ht.
      apply in_map_iff in Ht. destruct Ht as [k [<- Hk]].
      rewrite Forall_forall in Hs. specialize (Hs k Hk). apply Hidx. lia. }
  cbn [bind].
  rewrite (py_index_many_in_range _ s).
  2:{ eapply Forall_impl; [|exact Hs]. simpl. intros k Hk. apply Hidx. lia. }
  cbn [bind].
  pose proof (random_sample_length RS laws batch_size g1) as Hul.
  pose proof (random_sample_range RS laws batch_size g1) as Hur.
  destruct (random_sample batch_size g1) as [u g2]. cbn [fst snd] in *.
  unfold np_uniform. rewrite map_map.
  change (map (fun x => nth (Z.to_nat (x - 1)) (sqrt_alphas_cumprod_prev m) 0) s)
    with (map (fun k => at_ (k - 1)%Z) s).
  change (map (fun t => nth (Z.to_nat t) (sqrt_alphas_cumprod_prev m) 0) s)
    with (map at_ s).
  rewrite (np_uniform_map (fun k => at_ (k - 1)%Z) at_ s u).
  exists s, u, g2. split; [reflexivity|].
  split; [unfold s; rewrite length_map; exact Hil|].
  split; [exact Hul|]. split; [exact Hs | exact Hur].
Qed.


Lemma concat_shape (b l : nat) (w : Wave) :
  wave_shape b l w -> length (concat w) = (b * l)%nat.
Proof.
  intros [Hb Hl]. subst b.
  induction Hl as [|row w Hrow _ IH]; simpl; [reflexivity|].
  rewrite length_app, IH, Hrow. reflexivity.
Qed.

Lemma wscale_rows_shape (b l : nat) (level : Vec) (w : Wave) :
  length level = b -> wave_shape b l w -> wave_shape b l (wscale_rows level w).
Proof.
  intros Hlen [Hb Hl]. unfold wscale_rows.
  split; [rewrite map2_length; lia|].
  eapply (map2_Forall _ (fun _ => True)); [| |exact Hl].
  - intros c row _ Hrow. cbv beta in *. rewrite length_map. exact Hrow.
  - apply Forall_forall. intros; exact I.
Qed.

Lemma abs_differences_nonneg (x y : Wave) :
  Forall (fun v => 0 <= v) (concat (map2 (map2 (fun a b => Rabs (a - b))) x y)).
Proof.
  apply Forall_concat.
  eapply (map2_Forall _ (fun _ => True) (fun _ => True));
    [|apply Forall_forall; intros; exact I
     |apply Forall_forall; intros; exact I].
  intros r1 r2 _ _.
  eapply (map2_Forall _ (fun _ => True) (fun _ => True));
    [|apply Forall_forall; intros; exact I
     |apply Forall_forall; intros; exact I].
  intros a b _ _. apply Rabs_pos.
Qed.

(** The loss of two tensors of one shape with entries: a number that is not
    negative. *)
Lemma l1_loss_value (b l : nat) (x y : Wave) :
  wave_shape b l x -> wave_shape b l y -> (0 < b * l)%nat ->
  exists loss, l1_loss x y = Some loss /\ 0 <= loss.
Proof.
  intros Hx Hy Hpos. unfold l1_loss.
  set (d := concat (map2 (map2 (fun a b => Rabs (a - b))) x y)).
  assert (Hlen : length d = (b * l)%nat).
  { unfold d. apply concat_shape. apply wave_shape_map2; assumption. }
  destruct (length d =? 0)%nat eqn:E; [apply Nat.eqb_eq in E; lia|].
  eexists. split; [reflexivity|].
  apply Rmult_le_pos.
  - pose proof (abs_differences_nonneg x y) as Hd. fold d in Hd.
    clear - Hd. induction Hd as [|v d Hv _ IH]; simpl; lra.
  - left. apply Rinv_0_lt_compat. apply lt_0_INR. lia.
Qed.

Hypothesis predictor_contract : keeps_shape (nn m).

(** X11. On a valid schedule, with a predictor that keeps shapes, [compute_loss]
    returns on every batch: the level and the noise it hands to [q_sample]
    are both supplied, so nothing there can raise.  On a batch with samples
    the loss is a number that is not negative; on the empty batch it is
    nan. *)
Theorem compute_loss_returns (NN : Config -> Predictor) (config : Config)
    (mels : Mels) (y_0 : Wave) (g : Gen) (b l : nat) :
  valid_schedule (cfg_n_iter config) (cfg_betas_range config) ->
  init NN config = Ok m ->
  wave_shape b l y_0 ->
  exists loss g',
    compute_loss m mels y_0 g = Ok (loss, g') /\
    ((0 < b * l)%nat -> exists v, loss = Some v /\ 0 <= v) /\
    (b = 0%nat -> loss = None).
Proof.
  intros Hvalid Hinit Hy.
  pose proof (init_model_wf _ _ _ Hinit) as Hwf.
  destruct (init_inv _ _ _ Hinit) as (_ & _ & _ & _ & Hni & _).
  assert (Hn : (0 < n_iter m)%Z) by (rewrite Hni; exact (proj1 Hvalid)).
  destruct (noise_levels_generated (length y_0) g Hwf Hn)
    as (s & u & g1 & Hrun & Hs & Hu & _).
  unfold compute_loss. rewrite Hrun. cbn [bind].
  pose proof (randn_like_shape laws b l y_0 g1 Hy) as Heps.
  destruct (randn_like y_0 g1) as [eps g2]. cbn [fst] in Heps.
  rewrite q_sample_supplied. cbn [bind].
  set (level := map2 _ s u).
  assert (Hlevel : length level = b).
  { unfold level. rewrite map2_length. destruct Hy as [Hb _]. lia. }
  set (y_noisy := wadd _ _).
  assert (Hnoisy : wave_shape b l y_noisy).
  { unfold y_noisy. apply wave_shape_map2; apply wscale_rows_shape;
      try assumption. rewrite length_map. exact Hlevel. }
  pose proof (predictor_contract mels y_noisy level b l Hnoisy) as Hrecon.
  eexists. eexists. split; [reflexivity|]. split.
  - intros Hpos. exact (l1_loss_value b l _ _ Hrecon Heps Hpos).
  - intros ->. destruct Hrecon as [Hb _].
    destruct (nn m mels y_noisy level); [reflexivity | discriminate].
Qed.

End NoiseLevels.

Section NoSteps.

Context {RS : RandomSource}.
Variable m : WaveGrad.

(** X12. A schedule without steps can be constructed, but its model cannot be
    trained: on a batch that is not empty the noise-level sampler has no
    step to choose from, so [compute_loss], and [q_sample] without [eps],
    raise [ValueError].  [sample] still returns: it makes no reverse step,
    and what it returns is the initial noise. *)
Theorem model_without_steps (mels : Mels) (y_0 : Wave) (level : option Vec)
    (g : Gen) :
  n_iter m = 0%Z ->
  (y_0 <> [] ->
   compute_loss m mels y_0 g = Raise ValueError /\
   q_sample m y_0 level None g = Raise ValueError) /\
  (forall k, total_factor m = np_int64 k ->
     (0 <= Z.of_nat (mel_T mels) * k < 2 ^ 63)%Z ->
     sample m mels false g =
     Ok (Final (fst (randn (length (mel_data mels))
                       (Z.to_nat (Z.of_nat (mel_T mels) * k)) g)),
         snd (randn (length (mel_data mels))
                (Z.to_nat (Z.of_nat (mel_T mels) * k)) g))).
Proof.
  intros Hn. split.
  - intros Hne.
    assert (Hraise : sample_continious_noise_level m (length y_0) g
                     = Raise ValueError).
    { unfold sample_continious_noise_level, np_random_choice_range.
      rewrite Hn. cbn [Z.add Z.sub Z.max Z.compare Z.eqb Z.opp Z.pos_sub andb].
      destruct y_0 as [|r y_0]; [contradiction|]. reflexivity. }
    split.
    + unfold compute_loss. rewrite Hraise. reflexivity.
    + unfold q_sample, q_sample_level. rewrite Hraise. reflexivity.
  - intros k Htot Hr.
    rewrite (sample_chain m mels false g k ltac:(lia) Htot Hr). cbv zeta.
    rewrite Hn. reflexivity.
Qed.

End NoSteps.


Lemma compute_loss_returns_witness :
  keeps_shape (nn Demo.model) /\
  valid_schedule (cfg_n_iter Demo.config) (cfg_betas_range Demo.config) /\
  init Demo.echo Demo.config = Ok Demo.model /\
  wave_shape 1 2 [[5; -7]] /\
  exists loss g',
    compute_loss (RS := Demo.counting_source) Demo.model Demo.mels [[5; -7]] 0%nat
      = Ok (loss, g') /\
    exists v, loss = Some v /\ 0 <= v.
Proof.
  assert (Hi : init Demo.echo Demo.config = Ok Demo.model) by reflexivity.
  assert (Hs : wave_shape 1 2 [[5; -7]])
    by (split; [reflexivity | repeat constructor]).
  split; [exact echo_keeps_shape|]. split; [exact demo_valid_schedule|].
  split; [exact Hi|]. split; [exact Hs|].
  destruct (compute_loss_returns (RS := Demo.counting_source)
              counting_source_laws Demo.model echo_keeps_shape Demo.echo
              Demo.config Demo.mels [[5; -7]] 0%nat 1 2
              demo_valid_schedule Hi Hs)
    as (loss & g' & Hrun & Hpos & _).
  exists loss, g'. split; [exact Hrun|]. apply Hpos. simpl. lia.
Defined.

Lemma model_without_steps_witness :
  n_iter Demo.model_no_steps = 0%Z /\
  compute_loss (RS := Demo.counting_source) Demo.model_no_steps Demo.mels
    [[5; -7]] 0%nat = Raise ValueError /\
  q_sample (RS := Demo.counting_source) Demo.model_no_steps [[5; -7]] None None
    0%nat = Raise ValueError.
Proof.
  assert (Hn : n_iter Demo.model_no_steps = 0%Z) by reflexivity.
  split; [exact Hn|].
  apply (proj1 (model_without_steps (RS := Demo.counting_source)
                  Demo.model_no_steps Demo.mels [[5; -7]] None 0%nat Hn)).
  discriminate.
Defined.

(** ** The posterior of a clean signal *)








(** ** The ends of the schedule *)

Lemma sorted_map_seq (rel : R -> R -> Prop) (f : nat -> R) (n : nat) :
  (forall i j, (i < j)%nat -> rel (f i) (f j)) ->
  forall a, StronglySorted rel (map f (seq a n)).
Proof.
  intros Hf. induction n as [|n IH]; intros a; simpl; constructor.
  - apply IH.
  - apply Forall_forall. intros x Hx.
    apply in_map_iff in Hx. destruct Hx as [j [<- Hj]].
    apply in_seq in Hj. apply Hf. lia.
Qed.

(** X15. The schedule starts at [beta_min] and, with more than one step, ends at
    [beta_max]; its first cumulative product is [1 - beta_min]; and when
    [beta_min <= beta_max] the [alphas] never go up. *)
Theorem schedule_endpoints (NN : Config -> Predictor) (config : Config)
    (m : WaveGrad) :
  init NN config = Ok m ->
  (0 < n_iter m)%Z ->
  py_index (betas m) 0 = Ok (fst (cfg_betas_range config)) /\
  py_index (alphas_cumprod m) 0 = Ok (1 - fst (cfg_betas_range config)) /\
  ((1 < n_iter m)%Z -> py_index (betas m) (-1) = Ok (snd (cfg_betas_range config))) /\
  (fst (cfg_betas_range config) <= snd (cfg_betas_range config) ->
   non_increasing (alphas m)).
Proof.
  intros Hinit Hn.
  destruct (init_inv _ _ _ Hinit)
    as (bs & _ & Hlin & _ & Hni & _ & _ & _ & Hb & Ha & Hacp & _).
  rewrite Hni in Hn.
  unfold linspace in Hlin.
  destruct (cfg_n_iter config <? 0)%Z; [discriminate|].
  injection Hlin as Hbs.
  set (lo := fst (cfg_betas_range config)) in *.
  set (hi := snd (cfg_betas_range config)) in *.
  set (N := Z.to_nat (cfg_n_iter config)) in *.
  assert (HN : INR N = IZR (cfg_n_iter config)) by (apply INR_to_nat; lia).
  destruct N as [|N'] eqn:EN; [lia|].
  split; [|split; [|split]].
  - rewrite Hb, <- Hbs. unfold py_index. cbn [seq map length nth].
    simpl. f_equal. ring.
  - rewrite Hacp, Ha, <- Hbs. unfold py_index, cumprod.
    cbn [seq map cumprod_from length nth]. simpl. f_equal. ring.
  - intros Hmany. rewrite Hb, <- Hbs. unfold py_index.
    rewrite length_map, length_seq.
    destruct ((0 <=? -1)%Z && (-1 <? Z.of_nat (S N'))%Z) eqn:E1;
      [apply andb_true_iff in E1; destruct E1 as [E1 _];
       apply Z.leb_le in E1; lia|].
    destruct ((- Z.of_nat (S N') <=? -1)%Z && (-1 <? 0)%Z) eqn:E2.
    2:{ apply andb_false_iff in E2. destruct E2 as [E2|E2];
          [apply Z.leb_gt in E2; lia | apply Z.ltb_ge in E2; lia]. }
    f_equal.
    replace (Z.to_nat (-1 + Z.of_nat (S N'))) with N' by lia.
    rewrite (nth_map_in_range _ _ 0%nat) by (rewrite length_seq; lia).
    rewrite seq_nth by lia. cbn [Nat.add].
    assert (HN' : INR N' = IZR (cfg_n_iter config) - 1)
      by (rewrite <- HN, S_INR; lra).
    rewrite HN'.
    assert (IZR (cfg_n_iter config) - 1 <> 0).
    { rewrite <- HN'. apply not_0_INR. lia. }
    field. assumption.
  - intros Hle. rewrite Ha, <- Hbs, map_map.
    apply sorted_map_seq. intros i j Hij.
    assert (Hstep : 0 <= (hi - lo) / (IZR (cfg_n_iter config) - 1)).
    { unfold Rdiv. apply Rmult_le_pos; [lra|].
      assert (Hd : 0 <= IZR (cfg_n_iter config) - 1).
      { rewrite <- HN, S_INR. pose proof (pos_INR N'). lra. }
      destruct Hd as [Hd|Hd].
      - left. apply Rinv_0_lt_compat. exact Hd.
      - rewrite <- Hd, Rinv_0. lra. }
    assert (Hinr : INR i <= INR j) by (apply le_INR; lia).
    nra.
Qed.

Lemma schedule_endpoints_witness :
  init Demo.echo Demo.config = Ok Demo.model /\
  (0 < n_iter Demo.model)%Z /\
  py_index (betas Demo.model) 0 = Ok (1 / 4) /\
  py_index (alphas_cumprod Demo.model) 0 = Ok (1 - 1 / 4) /\
  py_index (betas Demo.model) (-1) = Ok (1 / 2).
Proof.
  assert (Hi : init Demo.echo Demo.config = Ok Demo.model) by reflexivity.
  assert (Hn : (0 < n_iter Demo.model)%Z) by reflexivity.
  split; [exact Hi|]. split; [exact Hn|].
  destruct (schedule_endpoints Demo.echo Demo.config Demo.model Hi Hn)
    as (H0 & H1 & Hlast & _).
  split; [exact H0|]. split; [exact H1|]. apply Hlast. reflexivity.
Defined.

(** ** [q_sample] with nothing supplied *)

Section DefaultDiffusion.

Context {RS : RandomSource}.
Hypothesis laws : RandomSourceLaws RS.

(** X16. On a valid schedule [q_sample] without [eps] returns, whatever level the
    caller passes, a tensor of the shape of [y_0]. *)
Theorem q_sample_without_eps_returns (NN : Config -> Predictor)
    (config : Config) (m : WaveGrad) (y_0 : Wave) (level : option Vec)
    (g : Gen) (b l : nat) :
  valid_schedule (cfg_n_iter config) (cfg_betas_range config) ->
  init NN config = Ok m ->
  wave_shape b l y_0 ->
  exists out g',
    q_sample m y_0 level None g = Ok (out, g') /\ wave_shape b l out.
Proof.
  intros Hvalid Hinit Hy.
  pose proof (init_model_wf _ _ _ Hinit) as Hwf.
  destruct (init_inv _ _ _ Hinit) as (_ & _ & _ & _ & Hni & _).
  assert (Hn : (0 < n_iter m)%Z) by (rewrite Hni; exact (proj1 Hvalid)).
  destruct (noise_levels_generated laws m (length y_0) g Hwf Hn)
    as (s & u & g1 & Hrun & Hs & Hu & _).
  unfold q_sample, q_sample_level. rewrite Hrun. cbn [bind].
  pose proof (randn_like_shape laws b l y_0 g1 Hy) as Heps.
  destruct (randn_like y_0 g1) as [eps g2]. cbn [fst] in Heps.
  eexists. eexists. split; [reflexivity|].
  assert (Hlen : length (map2 (fun k x =>
                   nth (Z.to_nat (k - 1)) (sqrt_alphas_cumprod_prev m) 0 +
                   (nth (Z.to_nat k) (sqrt_alphas_cumprod_prev m) 0 -
                    nth (Z.to_nat (k - 1)) (sqrt_alphas_cumprod_prev m) 0) * x) s u)
                 = b).
  { rewrite map2_length. destruct Hy as [Hb _]. lia. }
  apply wave_shape_map2; apply wscale_rows_shape; try assumption.
  rewrite length_map. exact Hlen.
Qed.

End DefaultDiffusion.

Lemma q_sample_without_eps_returns_witness :
  valid_schedule (cfg_n_iter Demo.config) (cfg_betas_range Demo.config) /\
  init Demo.echo Demo.config = Ok Demo.model /\
  wave_shape 1 2 [[5; -7]] /\
  exists out g',
    q_sample (RS := Demo.counting_source) Demo.model [[5; -7]] None None 0%nat
      = Ok (out, g') /\
    wave_shape 1 2 out.
Proof.
  assert (Hi : init Demo.echo Demo.config = Ok Demo.model) by reflexivity.
  assert (Hs : wave_shape 1 2 [[5; -7]])
    by (split; [reflexivity | repeat constructor]).
  split; [exact demo_valid_schedule|]. split; [exact Hi|]. split; [exact Hs|].
  exact (q_sample_without_eps_returns (RS := Demo.counting_source)
           counting_source_laws Demo.echo Demo.config Demo.model [[5; -7]] None
           0%nat 1 2 demo_valid_schedule Hi Hs).
Defined.
